(** * SKIRT parallel core: process-group reductions and chunk dispatch

    A shallow embedding of [SKIRT/mpi/ProcessManager.cpp] (process-group
    state, initialisation, [sumToAll], [sumToRoot]) together with a model of
    the collective transport it calls, and of the chunk dispatcher declared in
    [SKIRT/core/MultiThreadParallel.hpp].

    Sizes and offsets ([size_t]) are [N]; [int] values are [Z]; a buffer
    ([Array] of [double]) is a list over an abstract element type [T]. *)

From stdpp Require Import base numbers option list strings sorting.

Local Open Scope N_scope.

(* ================================================================== *)
(** ** Platform constants and integer conversions *)

(** [INT_MAX] of <climits> for the 32-bit [int] of the supported platforms. *)
Definition INT_MAX : Z := 2147483647.

(** Implicit conversion of a [size_t] argument to an [int] parameter:
    reduction modulo 2^32 into the signed range. *)
Definition to_int (n : N) : Z :=
  let m := (Z.of_N n mod 2 ^ 32)%Z in
  if (m <? 2 ^ 31)%Z then m else (m - 2 ^ 32)%Z.

(** [const size_t maxMessageSize = INT_MAX - 2;] *)
Definition maxMessageSize : N := Z.to_N (INT_MAX - 2).

(** Thread-support levels of the MPI standard, in their mandated order
    SINGLE < FUNNELED < SERIALIZED < MULTIPLE. *)
Definition MPI_THREAD_SINGLE : Z := 0.
Definition MPI_THREAD_FUNNELED : Z := 1.
Definition MPI_THREAD_SERIALIZED : Z := 2.
Definition MPI_THREAD_MULTIPLE : Z := 3.

(* ================================================================== *)
(** ** Process-group state *)

(** The static members [_size] and [_rank] of [ProcessManager]. *)
Record ProcessManager := mkPM { _size : Z; _rank : Z }.

(** [int ProcessManager::_size{1}; int ProcessManager::_rank{0};] *)
Definition static_init : ProcessManager := {| _size := 1; _rank := 0 |}.

(** Modelled from the spec: the inline queries of ProcessManager.hpp, which
    is not among the sources; "isRoot() (rank==0), isMultiProc() (size>1)". *)
Definition isRoot (pm : ProcessManager) : bool := (_rank pm =? 0)%Z.
Definition isMultiProc (pm : ProcessManager) : bool := (1 <? _size pm)%Z.

(** What the MPI library of this process answers: whether it has been
    initialised already, the thread level [MPI_Init_thread] grants, and the
    size of and our rank in [MPI_COMM_WORLD]. *)
Record MPI := mkMPI {
  mpi_initialized : bool;
  mpi_provided : Z;
  mpi_comm_size : Z;
  mpi_comm_rank : Z
}.

Definition MPI_Init_thread (env : MPI) : MPI :=
  {| mpi_initialized := true;
     mpi_provided := mpi_provided env;
     mpi_comm_size := mpi_comm_size env;
     mpi_comm_rank := mpi_comm_rank env |}.

(** How a call ends: normally, or with a thrown [FatalError]. *)
Inductive completion :=
  | Returned
  | Thrown (message : string).

Section Process.

(** Whether the translation unit is compiled with [BUILD_WITH_MPI]. *)
Variable BUILD_WITH_MPI : bool.

(** The fragment bound. The source fixes it to [maxMessageSize]; the loops
    are written over an arbitrary bound [mms] so that they can also be run
    on short buffers. *)
Variable mms : N.

(** [ProcessManager::initialize]. *)
Definition initialize (env : MPI) (pm : ProcessManager)
  : completion * MPI * ProcessManager :=
  if BUILD_WITH_MPI then
    if negb (mpi_initialized env) then
      let provided := mpi_provided env in
      let env' := MPI_Init_thread env in
      if (provided <? MPI_THREAD_FUNNELED)%Z then
        (Thrown "MPI implementation does not support funneled threads", env', pm)
      else
        (Returned, env',
         {| _size := mpi_comm_size env'; _rank := mpi_comm_rank env' |})
    else (Returned, env, pm)
  else (Returned, env, pm).

(** *** Collective calls issued by one process *)

(** The send-buffer argument: [MPI_IN_PLACE] or a pointer, as an element
    offset from [begin(arr)]. *)
Inductive sendbuf :=
  | MPI_IN_PLACE
  | SendAt (data : N).

(** One call of [MPI_Allreduce] or [MPI_Reduce] with datatype [MPI_DOUBLE],
    operation [MPI_SUM] and communicator [MPI_COMM_WORLD]; [count] is the
    [size_t] expression of the source, before its conversion to [int]. *)
Inductive Collective :=
  | MPI_Allreduce (send : sendbuf) (recv : N) (count : N)
  | MPI_Reduce (send : sendbuf) (recv : N) (count : N) (root : Z).

Definition call_send (c : Collective) : sendbuf :=
  match c with MPI_Allreduce s _ _ | MPI_Reduce s _ _ _ => s end.
Definition call_recv (c : Collective) : N :=
  match c with MPI_Allreduce _ r _ | MPI_Reduce _ r _ _ => r end.
Definition call_count (c : Collective) : N :=
  match c with MPI_Allreduce _ _ n | MPI_Reduce _ _ n _ => n end.

(** Offset from which the process contributes its elements. *)
Definition call_source (c : Collective) : N :=
  match call_send c with MPI_IN_PLACE => call_recv c | SendAt d => d end.

(** The body of [sumToAll] from [while (remaining > maxMessageSize)] on.
    [fuel] bounds the number of loop tests; [None] means it ran out. In the
    loop [remaining > mms], so [remaining -= mms] does not wrap. *)
Fixpoint sumToAll_loop (fuel : nat) (data remaining : N)
  : option (list Collective) :=
  match fuel with
  | O => None
  | S fuel' =>
      if mms <? remaining then
        cons (MPI_Allreduce MPI_IN_PLACE data mms)
          <$> sumToAll_loop fuel' (data + mms) (remaining - mms)
      else Some [MPI_Allreduce MPI_IN_PLACE data remaining]
  end.

(** The body of [sumToRoot] from its [while] on. *)
Fixpoint sumToRoot_loop (pm : ProcessManager) (fuel : nat) (data remaining : N)
  : option (list Collective) :=
  match fuel with
  | O => None
  | S fuel' =>
      if mms <? remaining then
        cons (if isRoot pm then MPI_Reduce MPI_IN_PLACE data mms 0
              else MPI_Reduce (SendAt data) data mms 0)
          <$> sumToRoot_loop pm fuel' (data + mms) (remaining - mms)
      else Some [if isRoot pm then MPI_Reduce MPI_IN_PLACE data remaining 0
                 else MPI_Reduce (SendAt data) data remaining 0]
  end.

(** Loop tests that suffice for a buffer of [size] elements. *)
Definition loop_fuel (size : N) : nat := S (N.to_nat (size / mms)).

(** [ProcessManager::sumToAll] on an array of [size] elements: the
    collective calls the process issues, in order. *)
Definition sumToAll (pm : ProcessManager) (size : N) : option (list Collective) :=
  if BUILD_WITH_MPI then
    if isMultiProc pm then sumToAll_loop (loop_fuel size) 0 size
    else Some []
  else Some [].

(** [ProcessManager::sumToRoot]. *)
Definition sumToRoot (pm : ProcessManager) (size : N) : option (list Collective) :=
  if BUILD_WITH_MPI then
    if isMultiProc pm then sumToRoot_loop pm (loop_fuel size) 0 size
    else Some []
  else Some [].

End Process.

(* ================================================================== *)
(** ** The collective transport

    [sumToAll] and [sumToRoot] change a buffer only through the collective
    calls they issue. The transport below gives those calls the meaning the
    MPI standard gives them for [MPI_SUM]: position by position, the elements
    contributed by the ranks are combined, and the result is stored in the
    receive buffer of every rank ([MPI_Allreduce]) or of the root only
    ([MPI_Reduce]). *)

Inductive op_kind :=
  | AllreduceOp
  | ReduceOp (root : Z).

#[global] Instance op_kind_eq_dec : EqDecision op_kind.
Proof. solve_decision. Defined.

Definition call_kind (c : Collective) : op_kind :=
  match c with
  | MPI_Allreduce _ _ _ => AllreduceOp
  | MPI_Reduce _ _ _ root => ReduceOp root
  end.

(** Whether the rank's receive buffer is written by the call. *)
Definition receives (rank : nat) (c : Collective) : bool :=
  match c with
  | MPI_Allreduce _ _ _ => true
  | MPI_Reduce _ _ _ root => bool_decide (Z.of_nat rank = root)
  end.

(** Send and receive ranges may not overlap. *)
Definition disjoint_ranges (d r n : N) : bool := (d + n <=? r) || (r + n <=? d).

(** Argument rules of the standard: [MPI_IN_PLACE] is for every rank of an
    all-reduce but only for the root of a reduce; where a rank is written, a
    separate send buffer may not alias the receive buffer. *)
Definition call_valid (rank : nat) (c : Collective) : bool :=
  match call_send c with
  | MPI_IN_PLACE => receives rank c
  | SendAt d =>
      if receives rank c then disjoint_ranges d (call_recv c) (call_count c)
      else true
  end.

Section Transport.

Context {T : Type}.

(** [MPI_SUM] over the elements that the ranks hold at one position, listed in
    rank order. The association order of a floating-point sum is the
    transport's choice, so the combination is kept abstract. *)
Variable msum : list T → T.

(** How the transport's count parameter receives a [size_t] count: [to_int]
    for the [int] of MPI, [Z.of_N] for a transport without a count limit. *)
Variable as_count : N → Z.

Definition segment (off n : nat) (buf : list T) : list T := take n (drop off buf).

Definition store (off : nat) (seg buf : list T) : list T :=
  take off buf ++ seg ++ drop (off + length seg) buf.

Definition column (i : nat) (segs : list (list T)) : list T :=
  omap (λ s, s !! i) segs.

Definition reduce_segments (n : nat) (segs : list (list T)) : list T :=
  (λ i, msum (column i segs)) <$> seq 0 n.

(** The elements a rank contributes; [None] when the count is negative or the
    range leaves the array. *)
Definition contribution (c : Collective) (buf : list T) : option (list T) :=
  let n := as_count (call_count c) in
  let off := N.to_nat (call_source c) in
  if bool_decide (0 ≤ n)%Z && bool_decide (off + Z.to_nat n ≤ length buf)%nat
  then Some (segment off (Z.to_nat n) buf)
  else None.

Definition deliver (rank : nat) (c : Collective) (result buf : list T) : list T :=
  if receives rank c then store (N.to_nat (call_recv c)) result buf else buf.

(** The ranks agree on the operation and on the count. *)
Definition calls_match (c0 c : Collective) : bool :=
  bool_decide (call_kind c = call_kind c0)
  && bool_decide (as_count (call_count c) = as_count (call_count c0)).

(** One collective operation: [round] holds the call of each rank, [bufs] the
    array of each rank. Mismatched or invalid calls are erroneous ([None]). *)
Definition collective_round (round : list Collective) (bufs : list (list T))
  : option (list (list T)) :=
  match round with
  | [] => Some bufs
  | c0 :: _ =>
      if bool_decide (length round = length bufs)
         && forallb (calls_match c0) round
         && forallb (uncurry call_valid) (imap pair round)
      then
        segs ← mapM (uncurry contribution) (zip round bufs);
        let result := reduce_segments (Z.to_nat (as_count (call_count c0))) segs in
        Some (imap (λ rank cb, deliver rank cb.1 result cb.2) (zip round bufs))
      else None
  end.

Definition next_call (trace : list Collective) : option Collective := head trace.

(** The ranks proceed in lock step: the k-th collective call of every rank
    forms the k-th round. A rank that has returned while another still waits
    in a collective leaves the group hanging ([None]). *)
Fixpoint run_rounds (rounds : nat) (traces : list (list Collective))
  (bufs : list (list T)) : option (list (list T)) :=
  match rounds with
  | O => if forallb (λ tr, bool_decide (tr = [])) traces then Some bufs else None
  | S rounds' =>
      round ← mapM next_call traces;
      bufs' ← collective_round round bufs;
      run_rounds rounds' (tail <$> traces) bufs'
  end.

Definition run_group (traces : list (list Collective)) (bufs : list (list T))
  : option (list (list T)) :=
  run_rounds (length (default [] (head traces))) traces bufs.

(** The arrays once the positions below [off] hold the reduced values [A] on
    the ranks that receive. *)
Definition reduced_upto (w : nat → bool) (off : nat) (A : list T)
  (bufs : list (list T)) : list (list T) :=
  imap (λ r b, if w r then take off A ++ drop off b else b) bufs.

End Transport.

Section Group.

Context {T : Type}.
Variable msum : list T → T.

(** A process group calling [sumToAll] (resp. [sumToRoot]) over MPI: each
    process has its own [ProcessManager] state and its own array; the result
    is the array of each process on return. *)
Definition group_sumToAll (mpi : bool) (mms : N)
  (procs : list (ProcessManager * list T)) : option (list (list T)) :=
  traces ← mapM (λ p, sumToAll mpi mms p.1 (N.of_nat (length p.2))) procs;
  run_group msum to_int traces (snd <$> procs).

Definition group_sumToRoot (mpi : bool) (mms : N)
  (procs : list (ProcessManager * list T)) : option (list (list T)) :=
  traces ← mapM (λ p, sumToRoot mpi mms p.1 (N.of_nat (length p.2))) procs;
  run_group msum to_int traces (snd <$> procs).

(** The process group [initialize] establishes over [P] processes. *)
Definition member (P rank : nat) : ProcessManager :=
  {| _size := Z.of_nat P; _rank := Z.of_nat rank |}.

Definition group (bufs : list (list T)) : list (ProcessManager * list T) :=
  imap (λ rank buf, (member (length bufs) rank, buf)) bufs.

(** A single collective call over the whole arrays, on a transport without a
    count limit. *)
Definition unbounded_Allreduce (bufs : list (list T)) : option (list (list T)) :=
  collective_round msum Z.of_N
    ((λ buf, MPI_Allreduce MPI_IN_PLACE 0 (N.of_nat (length buf))) <$> bufs) bufs.

Definition unbounded_Reduce (bufs : list (list T)) : option (list (list T)) :=
  collective_round msum Z.of_N
    (imap (λ rank buf,
       if bool_decide (rank = 0%nat)
       then MPI_Reduce MPI_IN_PLACE 0 (N.of_nat (length buf)) 0
       else MPI_Reduce (SendAt 0) 0 (N.of_nat (length buf)) 0) bufs) bufs.

End Group.

(* ================================================================== *)
(** ** Chunk dispatch

    [MultiThreadParallel.hpp] declares the data members of the dispatcher;
    the bodies of [call] and [doSomeWork], and the thread pool of
    [MultiParallel], are not among the sources. *)

(** A half-open index range [first, first + count). *)
Definition Chunk : Type := N * N.

(** What a participating thread is doing. *)
Inductive worker :=
  | Idle
  | Working (first count : N)
  | Stopped.

Section Dispatch.

(** The error payload of the callback. *)
Context {E : Type}.

(** The data members [_chunkSize], [_maxIndex] and [_nextIndex] of
    [MultiThreadParallel], the state of the participating threads, and the
    slot in which a callback error is captured. [claimed], [completed] and
    [raised] log what happened, in order. *)
Record Dispatch := mkDispatch {
  _chunkSize : N;
  _maxIndex : N;
  _nextIndex : N;
  threads : list worker;
  captured : option E;
  claimed : list Chunk;
  completed : list Chunk;
  raised : list (Chunk * E)
}.

(** How [dispatch] ends for its caller. *)
Inductive outcome :=
  | Done
  | Raised (e : E).

(** The callback [_target]: [Some e] when it raises [e] on the chunk. *)
Variable target : N → N → option E.

(** The chunk-size heuristic, a function of [maxIndex] and the thread count. *)
Variable policy : N → nat → N.

(** Modelled from the spec: the beginning of [call], missing from the
    sources. "If maxIndex == 0, returns immediately without invoking the
    callback or waking any thread. Otherwise computes a chunk size [...]
    floored at 1; initializes a shared atomic cursor to 0; wakes all worker
    threads". *)
Definition call (threadCount : nat) (maxIndex : N) : Dispatch :=
  if maxIndex =? 0 then
    mkDispatch 0 maxIndex 0 (replicate threadCount Stopped) None [] [] []
  else
    mkDispatch (N.max 1 (policy maxIndex threadCount)) maxIndex 0
      (replicate threadCount Idle) None [] [] [].

Definition set_thread (t : nat) (w : worker) (d : Dispatch) : Dispatch :=
  mkDispatch (_chunkSize d) (_maxIndex d) (_nextIndex d) (<[t:=w]> (threads d))
    (captured d) (claimed d) (completed d) (raised d).

(** Modelled from the spec: the claim of [doSomeWork], missing from the
    sources. "an atomic fetch-and-add of the chunk size against the shared
    cursor to claim the next chunk [prior, prior+chunkSize) clipped to
    maxIndex; if the claimed range is empty (cursor already ≥ maxIndex) the
    thread stops claiming". *)
Definition claim (t : nat) (d : Dispatch) : Dispatch :=
  let prior := _nextIndex d in
  let next := prior + _chunkSize d in
  if _maxIndex d <=? prior then
    mkDispatch (_chunkSize d) (_maxIndex d) next (<[t:=Stopped]> (threads d))
      (captured d) (claimed d) (completed d) (raised d)
  else
    let count := N.min (_chunkSize d) (_maxIndex d - prior) in
    mkDispatch (_chunkSize d) (_maxIndex d) next
      (<[t:=Working prior count]> (threads d))
      (captured d) (claimed d ++ [(prior, count)]) (completed d) (raised d).

(** Modelled from the spec: the end of a callback invocation, missing from
    the sources. "if the callback raises an error on any thread, that error
    must be captured"; the slot keeps the first error. *)
Definition finish (t : nat) (first count : N) (d : Dispatch) : Dispatch :=
  match target first count with
  | None =>
      mkDispatch (_chunkSize d) (_maxIndex d) (_nextIndex d)
        (<[t:=Idle]> (threads d)) (captured d) (claimed d)
        (completed d ++ [(first, count)]) (raised d)
  | Some e =>
      mkDispatch (_chunkSize d) (_maxIndex d) (_nextIndex d)
        (<[t:=Stopped]> (threads d))
        (match captured d with None => Some e | Some e0 => Some e0 end)
        (claimed d) (completed d) (raised d ++ [((first, count), e)])
  end.

(** Modelled from the spec: one scheduling step of thread [t], missing from
    the sources. An idle thread stops once an error has been captured
    ("chunks not yet claimed are abandoned") and claims otherwise; a working
    thread ends its callback; a stopped thread stays stopped. *)
Definition step (d : Dispatch) (t : nat) : Dispatch :=
  match threads d !! t with
  | Some Idle =>
      match captured d with
      | Some _ => set_thread t Stopped d
      | None => claim t d
      end
  | Some (Working first count) => finish t first count d
  | Some Stopped | None => d
  end.

(** The threads interleave as the scheduler decides. *)
Definition run (sched : list nat) (d : Dispatch) : Dispatch := foldl step d sched.

Definition stopped (w : worker) : bool :=
  match w with Stopped => true | _ => false end.

(** Every participating thread has rejoined. *)
Definition joined (d : Dispatch) : bool := forallb stopped (threads d).

(** Modelled from the spec: the end of [call], missing from the sources.
    "dispatch returns to the caller only after every participating thread
    has [...] rejoined"; a captured error is "re-raised once to the calling
    thread". [None] while the caller is still blocked. *)
Definition dispatch_result (d : Dispatch) : option outcome :=
  if joined d then
    Some (match captured d with None => Done | Some e => Raised e end)
  else None.

(** A thread the scheduler can usefully run. *)
Definition live (d : Dispatch) (t : nat) : bool :=
  match threads d !! t with
  | Some Idle | Some (Working _ _) => true
  | _ => false
  end.

(** A scheduler that always runs the first live thread, for [fuel] steps. *)
Fixpoint run_first_live (fuel : nat) (d : Dispatch) : Dispatch :=
  match fuel with
  | O => d
  | S fuel' =>
      match list_find (λ w, stopped w = false) (threads d) with
      | Some (t, _) => run_first_live fuel' (step d t)
      | None => d
      end
  end.

End Dispatch.

(** The heuristic the spec names as standard: [maxIndex / (threadCount × K)]. *)
Definition standard_policy (K : N) (maxIndex : N) (threadCount : nat) : N :=
  maxIndex / (N.of_nat threadCount * K).

(** The chunks partition [0, maxIndex): they lie in the range, cover it, do
    not overlap, and none is empty. *)
Definition in_chunk (i : N) (c : Chunk) : Prop := c.1 ≤ i ∧ i < c.1 + c.2.

Definition partitions (chunks : list Chunk) (maxIndex : N) : Prop :=
  (∀ i, i < maxIndex → ∃ c, c ∈ chunks ∧ in_chunk i c)
  ∧ (∀ c, c ∈ chunks → 0 < c.2 ∧ c.1 + c.2 ≤ maxIndex)
  ∧ (∀ j k c1 c2 i, chunks !! j = Some c1 → chunks !! k = Some c2 →
       in_chunk i c1 → in_chunk i c2 → j = k).

(** *** Ranges and fragments *)

(** Consecutive ranges from [from] up to [to]: each starts where the previous
    one ends. *)
Fixpoint tiles (ranges : list (N * N)) (from to : N) : Prop :=
  match ranges with
  | [] => from = to
  | c :: rest => c.1 = from ∧ tiles rest (from + c.2) to
  end.

(** The range of the array that a call reduces into. *)
Definition call_range (c : Collective) : N * N := (call_recv c, call_count c).

(** The calls of the two functions on a range, as the source writes them. *)
Definition allreduce_at (rg : N * N) : Collective :=
  MPI_Allreduce MPI_IN_PLACE rg.1 rg.2.

Definition reduce_at (root : bool) (rg : N * N) : Collective :=
  if root then MPI_Reduce MPI_IN_PLACE rg.1 rg.2 0
  else MPI_Reduce (SendAt rg.1) rg.1 rg.2 0.

(** The elements of [buf] in a range. *)
Definition fragment {T : Type} (buf : list T) (rg : N * N) : list T :=
  segment (N.to_nat rg.1) (N.to_nat rg.2) buf.

(** Integer sums, to run the reductions on. *)
Definition zsum (col : list Z) : Z := foldr Z.add 0%Z col.

(** *** Bookkeeping of a dispatch *)

(** The chunk a thread is working on. *)
Definition chunk_of (w : worker) : option Chunk :=
  match w with Working first count => Some (first, count) | _ => None end.

(** The chunks that are claimed and whose callback has not ended yet. *)
Definition in_flight (ths : list worker) : list Chunk := omap chunk_of ths.

(** Steps a thread can still take by itself. *)
Definition weight (w : worker) : nat :=
  match w with Idle => 1 | Working _ _ => 2 | Stopped => 0 end.

Section DispatchInvariant.

Context {E : Type}.
Variable target : N → N → option E.

(** A bound on the scheduling steps of live threads that remain. *)
Definition measure (d : Dispatch (E:=E)) : nat :=
  3 * N.to_nat (_maxIndex d - _nextIndex d) + sum_list (weight <$> threads d).

(** What holds of every state of a dispatch. *)
Definition dispatch_inv (d : Dispatch (E:=E)) : Prop :=
  (_maxIndex d = 0 ∨ 1 ≤ _chunkSize d)
  ∧ tiles (claimed d) 0 (N.min (_nextIndex d) (_maxIndex d))
  ∧ Forall (λ c, 0 < c.2 ∧ c.2 ≤ _chunkSize d
                 ∧ (c.2 = _chunkSize d ∨ c.1 + c.2 = _maxIndex d)) (claimed d)
  ∧ captured d = snd <$> head (raised d)
  ∧ claimed d ≡ₚ completed d ++ (raised d).*1 ++ in_flight (threads d)
  ∧ Forall (λ ce, target ce.1.1 ce.1.2 = Some ce.2) (raised d)
  ∧ Forall (λ c, target c.1 c.2 = None) (completed d)
  ∧ (Stopped ∈ threads d → _maxIndex d ≤ _nextIndex d ∨ raised d ≠ []).

End DispatchInvariant.

(* ================================================================== *)
(** ** Barrier *)

(** A call of [MPI_Barrier] on [MPI_COMM_WORLD]. *)
Inductive Barrier :=
  | MPI_Barrier.

(** [ProcessManager::wait]: the barrier calls the process issues. *)
Definition wait (BUILD_WITH_MPI : bool) (pm : ProcessManager) : list Barrier :=
  if BUILD_WITH_MPI then
    if isMultiProc pm then [MPI_Barrier] else []
  else [].

(** The number of elements a trace of collective calls communicates. *)
Definition total_count (tr : list Collective) : N :=
  foldr N.add 0 (call_count <$> tr).

(* ================================================================== *)
(** ** Material types ([MaterialMix.hpp]) *)

(** [enum class MaterialType { Dust, Electrons, Gas }]. *)
Inductive MaterialType :=
  | Dust
  | Electrons
  | Gas.

#[global] Instance MaterialType_eq_dec : EqDecision MaterialType.
Proof. solve_decision. Defined.

(** The part of the [MaterialMix] interface that the inline queries use: the
    pure virtual [materialType()]. *)
Class MaterialMix (M : Type) := { materialType : M → MaterialType }.

(** [bool isDust() const { return materialType() == MaterialType::Dust; }] *)
Definition isDust `{MaterialMix M} (m : M) : bool :=
  bool_decide (materialType m = Dust).

(** [bool isElectrons() const { return materialType() == MaterialType::Electrons; }] *)
Definition isElectrons `{MaterialMix M} (m : M) : bool :=
  bool_decide (materialType m = Electrons).

(** [bool isGas() const { return materialType() == MaterialType::Gas; }] *)
Definition isGas `{MaterialMix M} (m : M) : bool :=
  bool_decide (materialType m = Gas).

(** The simplest implementation of the interface: a mix that is its type. *)
#[global] Instance MaterialType_mix : MaterialMix MaterialType :=
  {| materialType := id |}.

(* ================================================================== *)
(** * Properties *)

(** ** The model at work *)

Example sumToAll_trace_short :
  sumToAll true 2 (mkPM 3 1) 5
  = Some [MPI_Allreduce MPI_IN_PLACE 0 2; MPI_Allreduce MPI_IN_PLACE 2 2;
          MPI_Allreduce MPI_IN_PLACE 4 1].
Proof. reflexivity. Qed.

Example sumToRoot_trace_root :
  sumToRoot true 2 (mkPM 3 0) 4
  = Some [MPI_Reduce MPI_IN_PLACE 0 2 0; MPI_Reduce MPI_IN_PLACE 2 2 0].
Proof. reflexivity. Qed.

Example sumToRoot_trace_other :
  sumToRoot true 2 (mkPM 3 2) 4
  = Some [MPI_Reduce (SendAt 0) 0 2 0; MPI_Reduce (SendAt 2) 2 2 0].
Proof. reflexivity. Qed.

Example sumToAll_trace_large :
  sumToAll true maxMessageSize (mkPM 2 0) 5000000000
  = Some [MPI_Allreduce MPI_IN_PLACE 0 2147483645;
          MPI_Allreduce MPI_IN_PLACE 2147483645 2147483645;
          MPI_Allreduce MPI_IN_PLACE 4294967290 705032710].
Proof. reflexivity. Qed.

Example sumToAll_trace_empty :
  sumToAll true maxMessageSize (mkPM 2 1) 0 = Some [MPI_Allreduce MPI_IN_PLACE 0 0].
Proof. reflexivity. Qed.

Example sumToAll_no_mpi : sumToAll false maxMessageSize (mkPM 1 0) 7 = Some [].
Proof. reflexivity. Qed.

Example sumToAll_zero_bound_diverges : sumToAll true 0 (mkPM 2 0) 4 = None.
Proof. reflexivity. Qed.

Example to_int_wraps : to_int 4294967295 = (-1)%Z.
Proof. reflexivity. Qed.

Example group_sumToAll_run :
  group_sumToAll zsum true 2
    (group [[1; 2; 3; 4; 5]; [10; 20; 30; 40; 50]; [100; 200; 300; 400; 500]]%Z)
  = Some [[111; 222; 333; 444; 555]; [111; 222; 333; 444; 555];
          [111; 222; 333; 444; 555]]%Z.
Proof. reflexivity. Qed.

Example group_sumToRoot_run :
  group_sumToRoot zsum true 2
    (group [[1; 2; 3; 4; 5]; [10; 20; 30; 40; 50]; [100; 200; 300; 400; 500]]%Z)
  = Some [[111; 222; 333; 444; 555]; [10; 20; 30; 40; 50];
          [100; 200; 300; 400; 500]]%Z.
Proof. reflexivity. Qed.

Example group_sumToAll_length_mismatch :
  group_sumToAll zsum true 2 (group [[1; 2; 3; 4; 5]; [10; 20; 30; 40]]%Z) = None.
Proof. reflexivity. Qed.

Example dispatch_run :
  let d := run (λ _ _, @None string) [0; 1; 0; 1; 0; 1]%nat
             (call (standard_policy 1) 2 10) in
  claimed d = [(0, 5); (5, 5)] ∧ dispatch_result d = Some Done.
Proof. split; reflexivity. Qed.

Example dispatch_nothing_to_do :
  dispatch_result (run (λ _ _, @None string) [] (call (standard_policy 1) 2 0))
  = Some Done.
Proof. reflexivity. Qed.

(** ** Integer conversion *)

Lemma to_int_small (n : N) : (Z.of_N n ≤ INT_MAX)%Z → to_int n = Z.of_N n.
Proof.
  unfold to_int, INT_MAX. intros Hn.
  rewrite Z.mod_small by lia.
  destruct (Z.ltb_spec (Z.of_N n) (2 ^ 31)); lia.
Qed.

Lemma maxMessageSize_eq : maxMessageSize = 2147483645.
Proof. reflexivity. Qed.

(** ** The fragmentation loops *)

Section Loops.

Variable mms : N.
Hypothesis mms_pos : 0 < mms.

Lemma sumToRoot_loop_map pm fuel data remaining :
  sumToRoot_loop mms pm fuel data remaining
  = fmap (M:=list) (reduce_at (isRoot pm) ∘ call_range)
      <$> sumToAll_loop mms fuel data remaining.
Proof.
  revert data remaining. induction fuel as [|fuel IH]; intros data remaining; [done|].
  simpl. destruct (mms <? remaining).
  - rewrite IH. destruct (sumToAll_loop mms fuel _ _); simpl; [|done].
    unfold reduce_at at 2. simpl. by destruct (isRoot pm).
  - simpl. unfold reduce_at. simpl. by destruct (isRoot pm).
Qed.

Lemma sumToAll_loop_allreduce fuel data remaining tr :
  sumToAll_loop mms fuel data remaining = Some tr →
  tr = allreduce_at <$> (call_range <$> tr).
Proof.
  revert data remaining tr. induction fuel as [|fuel IH]; intros data remaining tr; [done|].
  simpl. destruct (mms <? remaining).
  - destruct (sumToAll_loop mms fuel _ _) as [tr'|] eqn:Htr'; simpl; [|done].
    intros [= <-]. simpl. f_equal. by eapply IH.
  - by intros [= <-].
Qed.

(** Enough fuel gives a trace. *)
Lemma sumToAll_loop_total fuel data remaining :
  (N.to_nat (remaining / mms) < fuel)%nat →
  is_Some (sumToAll_loop mms fuel data remaining).
Proof.
  revert data remaining. induction fuel as [|fuel IH]; intros data remaining Hf.
  { by apply Nat.nlt_0_r in Hf. }
  simpl. destruct (N.ltb_spec mms remaining) as [Hlt|Hge]; [|done].
  apply fmap_is_Some, IH.
  assert (remaining / mms = (remaining - mms) / mms + 1) as Hq.
  { replace remaining with ((remaining - mms) + 1 * mms) at 1 by lia.
    rewrite N.div_add by lia. done. }
  rewrite Hq in Hf. generalize dependent ((remaining - mms) / mms). intros; lia.
Qed.

(** The ranges tile [data, data + remaining), none is longer than the bound,
    and all but the last are as long as the bound. *)
Lemma sumToAll_loop_tiles fuel data remaining tr :
  sumToAll_loop mms fuel data remaining = Some tr →
  tiles (call_range <$> tr) data (data + remaining).
Proof.
  revert data remaining tr. induction fuel as [|fuel IH]; intros data remaining tr; [done|].
  simpl. destruct (N.ltb_spec mms remaining) as [Hlt|Hge].
  - destruct (sumToAll_loop mms fuel _ _) as [tr'|] eqn:Htr'; simpl; [|done].
    intros [= <-]. simpl. split; [done|].
    apply IH in Htr'.
    replace (data + mms + (remaining - mms)) with (data + remaining) in Htr'; [done|lia].
  - intros [= <-]. simpl. done.
Qed.

Lemma sumToAll_loop_counts fuel data remaining tr :
  sumToAll_loop mms fuel data remaining = Some tr →
  Forall (λ c, call_count c ≤ mms) tr.
Proof.
  revert data remaining tr. induction fuel as [|fuel IH]; intros data remaining tr; [done|].
  simpl. destruct (N.ltb_spec mms remaining) as [Hlt|Hge].
  - destruct (sumToAll_loop mms fuel _ _) as [tr'|] eqn:Htr'; simpl; [|done].
    intros [= <-]. constructor; [simpl; lia|]. by eapply IH.
  - intros [= <-]. repeat constructor. simpl. lia.
Qed.

(** The number of calls: one per started block of [mms] elements, and one for
    an empty array. *)
Lemma sumToAll_loop_length fuel data remaining tr :
  sumToAll_loop mms fuel data remaining = Some tr →
  length tr = S (N.to_nat ((remaining - 1) / mms)).
Proof.
  revert data remaining tr. induction fuel as [|fuel IH]; intros data remaining tr; [done|].
  simpl. destruct (N.ltb_spec mms remaining) as [Hlt|Hge].
  - destruct (sumToAll_loop mms fuel _ _) as [tr'|] eqn:Htr'; simpl; [|done].
    intros [= <-]. simpl. rewrite (IH _ _ _ Htr').
    replace (remaining - 1) with ((remaining - mms - 1) + 1 * mms) by lia.
    rewrite N.div_add by lia. generalize ((remaining - mms - 1) / mms). intros; lia.
  - intros [= <-]. simpl. rewrite N.div_small by lia. done.
Qed.

(** The offsets of the calls increase strictly. *)
Lemma sumToAll_loop_sorted fuel data remaining tr :
  sumToAll_loop mms fuel data remaining = Some tr →
  Forall (λ c, data ≤ call_recv c) tr
  ∧ StronglySorted N.lt (call_recv <$> tr).
Proof.
  revert data remaining tr. induction fuel as [|fuel IH]; intros data remaining tr; [done|].
  simpl. destruct (N.ltb_spec mms remaining) as [Hlt|Hge].
  - destruct (sumToAll_loop mms fuel _ _) as [tr'|] eqn:Htr'; simpl; [|done].
    intros [= <-]. destruct (IH _ _ _ Htr') as [Hlow Hsort]. split.
    + constructor; [simpl; lia|]. eapply Forall_impl; [exact Hlow|]. simpl. lia.
    + simpl. constructor; [done|]. apply Forall_fmap.
      eapply Forall_impl; [exact Hlow|]. simpl. lia.
  - intros [= <-]. split; repeat constructor. simpl. lia.
Qed.

Lemma loop_fuel_enough size : (N.to_nat (size / mms) < loop_fuel mms size)%nat.
Proof. unfold loop_fuel. lia. Qed.

Lemma sumToAll_multi pm size :
  isMultiProc pm = true →
  ∃ tr, sumToAll true mms pm size = Some tr
        ∧ sumToRoot true mms pm size
          = Some (reduce_at (isRoot pm) ∘ call_range <$> tr)
        ∧ sumToAll_loop mms (loop_fuel mms size) 0 size = Some tr.
Proof.
  intros Hm. unfold sumToAll, sumToRoot. rewrite Hm, sumToRoot_loop_map.
  destruct (sumToAll_loop_total (loop_fuel mms size) 0 size (loop_fuel_enough size))
    as [tr Htr].
  exists tr. by rewrite Htr.
Qed.

End Loops.

(** ** The transport *)

Section TransportFacts.

Context {T : Type}.
Variable msum : list T → T.
Variable as_count : N → Z.

Lemma length_reduce_segments n (segs : list (list T)) :
  length (reduce_segments msum n segs) = n.
Proof. unfold reduce_segments. by rewrite length_fmap, length_seq. Qed.

Lemma lookup_reduce_segments n (segs : list (list T)) i :
  (i < n)%nat → reduce_segments msum n segs !! i = Some (msum (column i segs)).
Proof.
  intros Hi. unfold reduce_segments.
  by rewrite list_lookup_fmap, lookup_seq_lt.
Qed.

Lemma lookup_segment off n (buf : list T) i :
  (i < n)%nat → segment off n buf !! i = buf !! (off + i)%nat.
Proof. intros Hi. unfold segment. by rewrite lookup_take_lt, lookup_drop. Qed.

Lemma length_segment off n (buf : list T) :
  (off + n ≤ length buf)%nat → length (segment off n buf) = n.
Proof. intros H. unfold segment. rewrite length_take, length_drop. lia. Qed.

Lemma column_segment off n i (bufs : list (list T)) :
  (i < n)%nat → column i (segment off n <$> bufs) = column (off + i) bufs.
Proof.
  intros Hi. unfold column. induction bufs as [|b bufs IH]; [done|].
  csimpl. by rewrite IH, lookup_segment.
Qed.

Lemma reduce_segments_segment off n L (bufs : list (list T)) :
  (off + n ≤ L)%nat →
  reduce_segments msum n (segment off n <$> bufs)
  = segment off n (reduce_segments msum L bufs).
Proof.
  intros Hle. apply list_eq. intros i.
  destruct (decide (i < n)%nat) as [Hi|Hi].
  - rewrite lookup_segment, !lookup_reduce_segments by lia.
    by rewrite column_segment.
  - rewrite !lookup_ge_None_2; [done|..].
    + rewrite length_segment; [lia|]. rewrite length_reduce_segments. lia.
    + rewrite length_reduce_segments. lia.
Qed.

Lemma segment_progress off n (A b : list T) :
  (off ≤ length A)%nat →
  segment off n (take off A ++ drop off b) = segment off n b.
Proof.
  intros H. unfold segment. f_equal.
  rewrite drop_app_length'; [done|]. rewrite length_take. lia.
Qed.

Lemma store_progress off n (A b : list T) :
  (off + n ≤ length A)%nat →
  store off (segment off n A) (take off A ++ drop off b)
  = take (off + n) A ++ drop (off + n) b.
Proof.
  intros H. unfold store. rewrite length_segment by done.
  rewrite take_app_length' by (rewrite length_take; lia).
  rewrite drop_app, length_take, drop_drop.
  rewrite (drop_ge (take off A)) by (rewrite length_take; lia).
  simpl. unfold segment. rewrite app_assoc, take_take_drop.
  do 2 f_equal. lia.
Qed.


Lemma forallb_lookup {A} (f : A → bool) (l : list A) :
  (∀ i x, l !! i = Some x → f x = true) → forallb f l = true.
Proof.
  intros H. apply forallb_forall. intros x Hx.
  apply list_elem_of_In, list_elem_of_lookup in Hx as [i Hi]. eauto.
Qed.

Lemma lookup_seq_Some_inv n i r : seq 0 n !! i = Some r → r = i ∧ (i < n)%nat.
Proof. intros H. apply lookup_seq in H. lia. Qed.

Lemma collective_round_cons c0 rest (bufs : list (list T)) :
  collective_round msum as_count (c0 :: rest) bufs
  = let round := c0 :: rest in
    if bool_decide (length round = length bufs)
       && forallb (calls_match as_count c0) round
       && forallb (uncurry call_valid) (imap pair round)
    then
      segs ← mapM (uncurry (contribution as_count)) (zip round bufs);
      Some (imap (λ rank cb,
              deliver rank cb.1
                (reduce_segments msum (Z.to_nat (as_count (call_count c0))) segs) cb.2)
              (zip round bufs))
    else None.
Proof. done. Qed.

(** One round in which every rank reduces the same range. *)
Lemma collective_round_uniform (mk : nat → Collective) (k0 : op_kind)
    (off n : N) (bufs : list (list T)) :
  as_count n = Z.of_N n →
  (∀ r, call_kind (mk r) = k0 ∧ call_count (mk r) = n ∧ call_recv (mk r) = off
        ∧ call_source (mk r) = off ∧ call_valid r (mk r) = true) →
  Forall (λ b, (N.to_nat off + N.to_nat n ≤ length b)%nat) bufs →
  collective_round msum as_count (mk <$> seq 0 (length bufs)) bufs
  = Some (imap (λ r b,
            if receives r (mk r)
            then store (N.to_nat off)
                   (reduce_segments msum (N.to_nat n)
                      (segment (T:=T) (N.to_nat off) (N.to_nat n) <$> bufs)) b
            else b) bufs).
Proof.
  intros Hn Hmk Hlen.
  assert (Z.to_nat (as_count n) = N.to_nat n ∧ (0 ≤ as_count n)%Z) as [Hint Hpos].
  { rewrite Hn. lia. }
  destruct bufs as [|b0 bufs']; [done|].
  remember (b0 :: bufs') as bufs eqn:Hbufs.
  assert (∃ rest, mk <$> seq 0 (length bufs) = mk 0%nat :: rest) as [rest Hround].
  { rewrite Hbufs. simpl. eauto. }
  rewrite Hround, collective_round_cons, <- Hround. cbv zeta.
  assert (∀ i c, (mk <$> seq 0 (length bufs)) !! i = Some c → c = mk i ∧ (i < length bufs)%nat)
    as Hlook.
  { intros i c Hc. apply list_lookup_fmap_Some in Hc as (r & -> & Hr).
    apply lookup_seq_Some_inv in Hr as [-> ?]. done. }
  rewrite bool_decide_eq_true_2 by (by rewrite length_fmap, length_seq).
  rewrite (forallb_lookup (calls_match as_count (mk 0%nat))); last first.
  { intros i c Hc. apply Hlook in Hc as [-> _]. unfold calls_match.
    destruct (Hmk i) as (-> & -> & _), (Hmk 0%nat) as (-> & -> & _).
    by rewrite !bool_decide_eq_true_2. }
  rewrite (forallb_lookup (uncurry call_valid)); last first.
  { intros i [r c]. rewrite list_lookup_imap. intros Hc.
    apply fmap_Some in Hc as (c' & Hc' & [= -> ->]).
    apply Hlook in Hc' as [-> _]. simpl. apply Hmk. }
  simpl.
  erewrite mapM_Some_2; last first.
  { apply (Forall2_same_length_lookup_2 _ _ (segment (N.to_nat off) (N.to_nat n) <$> bufs)).
    - rewrite length_zip_with, !length_fmap, length_seq. lia.
    - intros i [c b] seg. rewrite lookup_zip_with.
      intros Hcb Hseg. apply bind_Some in Hcb as (c' & Hc' & Hcb).
      apply bind_Some in Hcb as (b' & Hb' & [= -> ->]).
      apply Hlook in Hc' as [-> _].
      rewrite list_lookup_fmap, Hb' in Hseg. injection Hseg as <-.
      simpl. unfold contribution. destruct (Hmk i) as (_ & -> & _ & -> & _).
      rewrite Hint.
      pose proof (Forall_lookup_1 _ _ _ _ Hlen Hb') as Hb. simpl in Hb.
      by rewrite !bool_decide_eq_true_2 by lia. }
  simpl. f_equal. apply list_eq. intros i.
  rewrite !list_lookup_imap, lookup_zip_with, list_lookup_fmap.
  destruct (bufs !! i) as [b|] eqn:Hb; simpl.
  - rewrite lookup_seq_lt by (by eapply lookup_lt_Some). simpl.
    unfold deliver. simpl. destruct (Hmk i) as (_ & _ & -> & _), (Hmk 0%nat) as (_ & -> & _).
    by rewrite Hint.
  - by destruct (seq 0 (length bufs) !! i).
Qed.


Lemma tiles_le ranges a b : tiles ranges a b → a ≤ b.
Proof.
  revert a. induction ranges as [|[o n] rest IH]; simpl; intros a; [lia|].
  intros [_ H%IH]. lia.
Qed.

Lemma mapM_fmap_Some_fmap {A B C} (f : A → option B) (g : C → A) (h : C → B) l :
  (∀ x, f (g x) = Some (h x)) → mapM f (g <$> l) = Some (h <$> l).
Proof.
  intros H. apply mapM_Some_2.
  induction l as [|x l IH]; csimpl; constructor; auto.
Qed.

Lemma length_reduced_upto w off (A : list T) bufs :
  length (reduced_upto w off A bufs) = length bufs.
Proof. apply length_imap. Qed.

Lemma reduced_upto_all w (A : list T) bufs :
  Forall (λ b, length b = length A) bufs →
  reduced_upto w (length A) A bufs = imap (λ r b, if w r then A else b) bufs.
Proof.
  intros Hlen. apply list_eq. intros i. unfold reduced_upto.
  rewrite !list_lookup_imap. destruct (bufs !! i) as [b|] eqn:Hb; [simpl|done].
  destruct (w i); [|done].
  pose proof (Forall_lookup_1 _ _ _ _ Hlen Hb) as Hl. simpl in Hl.
  by rewrite take_ge, drop_ge, app_nil_r by lia.
Qed.

Lemma segment_reduced_upto w off n (A : list T) bufs :
  (off ≤ length A)%nat →
  segment off n <$> reduced_upto w off A bufs = segment off n <$> bufs.
Proof.
  intros Hoff. apply list_eq. intros i. unfold reduced_upto.
  rewrite !list_lookup_fmap, list_lookup_imap.
  destruct (bufs !! i) as [b|]; [simpl|done].
  destruct (w i); [|done]. by rewrite segment_progress.
Qed.

(** Lock-step rounds over consecutive ranges reduce the arrays range by
    range. *)
Lemma run_rounds_uniform (mk : nat → N * N → Collective) (k0 : op_kind)
    (w : nat → bool) (bufs : list (list T)) (L : nat) :
  Forall (λ b, length b = L) bufs →
  (∀ r rg, call_kind (mk r rg) = k0 ∧ call_range (mk r rg) = rg
           ∧ call_source (mk r rg) = rg.1 ∧ call_valid r (mk r rg) = true
           ∧ receives r (mk r rg) = w r) →
  ∀ ranges off,
  tiles ranges off (N.of_nat L) →
  Forall (λ rg, as_count rg.2 = Z.of_N rg.2) ranges →
  run_rounds msum as_count (length ranges)
    ((λ r, mk r <$> ranges) <$> seq 0 (length bufs))
    (reduced_upto w (N.to_nat off) (reduce_segments msum L bufs) bufs)
  = Some (imap (λ r b, if w r then reduce_segments msum L bufs else b) bufs).
Proof.
  intros Hlen Hmk. set (A := reduce_segments msum L bufs).
  assert (length A = L) as HA by apply length_reduce_segments.
  induction ranges as [|[o n] rest IH]; intros off Htiles Hfit.
  - simpl in Htiles. subst off. simpl.
    rewrite forallb_lookup; last first.
    { intros i tr Htr. apply list_lookup_fmap_Some in Htr as (r & -> & _).
      by apply bool_decide_eq_true_2. }
    f_equal. rewrite Nat2N.id, <- HA. apply reduced_upto_all. by rewrite HA.
  - simpl in Htiles. destruct Htiles as [-> Htiles].
    apply Forall_cons in Hfit as [Hn Hfit]. simpl in Hn.
    pose proof (tiles_le _ _ _ Htiles) as Hle.
    cbn [length run_rounds].
    rewrite <- list_fmap_compose.
    rewrite (mapM_fmap_Some_fmap _ _ (λ r, mk r (off, n))) by done.
    cbn [mbind option_bind].
    rewrite <- (length_reduced_upto w (N.to_nat off) A bufs) at 1.
    rewrite (collective_round_uniform _ k0 off n); last first.
    { apply Forall_lookup_2. intros i b. unfold reduced_upto.
      rewrite list_lookup_imap. intros Hb.
      apply fmap_Some in Hb as (b' & Hb' & ->).
      pose proof (Forall_lookup_1 _ _ _ _ Hlen Hb') as Hl. simpl in Hl.
      destruct (w i); [|lia].
      rewrite length_app, length_take, length_drop. lia. }
    { intros r. destruct (Hmk r (off, n)) as (? & Hrg & ? & ? & ?).
      unfold call_range in Hrg. injection Hrg as ? ?. done. }
    { done. }
    cbn [mbind option_bind].
    rewrite segment_reduced_upto by lia.
    rewrite (reduce_segments_segment _ _ L) by lia. fold A.
    rewrite <- (IH (off + n) Htiles Hfit). f_equal.
    apply list_eq. intros i. unfold reduced_upto.
    rewrite !list_lookup_imap.
    destruct (bufs !! i) as [b|] eqn:Hb; [simpl|done].
    destruct (Hmk i (off, n)) as (_ & _ & _ & _ & ->).
    destruct (w i); [|done].
    rewrite store_progress by lia. do 3 f_equal; lia.
Qed.

End TransportFacts.

(** ** Process groups *)

Section GroupFacts.

Context {T : Type}.
Variable msum : list T → T.
Lemma snd_group (bufs : list (list T)) : (group bufs).*2 = bufs.
Proof.
  apply list_eq. intros i. unfold group.
  rewrite list_lookup_fmap, list_lookup_imap. by destruct (bufs !! i).
Qed.

Lemma isMultiProc_member P r : isMultiProc (member P r) = bool_decide (1 < P)%nat.
Proof.
  unfold isMultiProc, member. simpl.
  destruct (Z.ltb_spec 1 (Z.of_nat P)); symmetry;
    [apply bool_decide_eq_true_2 | apply bool_decide_eq_false_2]; lia.
Qed.

Lemma isRoot_member P r : isRoot (member P r) = bool_decide (r = 0%nat).
Proof.
  unfold isRoot, member. simpl.
  destruct (Z.eqb_spec (Z.of_nat r) 0); symmetry;
    [apply bool_decide_eq_true_2 | apply bool_decide_eq_false_2]; lia.
Qed.

Lemma reduced_upto_0 w (A : list T) bufs : reduced_upto w 0 A bufs = bufs.
Proof.
  apply list_eq. intros i. unfold reduced_upto. rewrite list_lookup_imap.
  destruct (bufs !! i); [simpl|done]. by destruct (w i).
Qed.

(** The traces of a group whose arrays have the same length. *)
Lemma group_traces (f : ProcessManager → N → option (list Collective))
    (mk : nat → N * N → Collective) ranges (bufs : list (list T)) L :
  Forall (λ b, length b = L) bufs →
  (∀ r, f (member (length bufs) r) (N.of_nat L) = Some (mk r <$> ranges)) →
  mapM (λ p, f p.1 (N.of_nat (length p.2))) (group bufs)
  = Some ((λ r, mk r <$> ranges) <$> seq 0 (length bufs)).
Proof.
  intros Hlen Hf. apply mapM_Some_2, Forall2_same_length_lookup_2.
  - unfold group. by rewrite length_imap, length_fmap, length_seq.
  - intros i [pm b] tr. unfold group. rewrite list_lookup_imap, list_lookup_fmap.
    intros Hb Htr. apply fmap_Some in Hb as (b' & Hb' & [= -> ->]).
    rewrite lookup_seq_lt in Htr by (by eapply lookup_lt_Some).
    injection Htr as <-. simpl.
    pose proof (Forall_lookup_1 _ _ _ _ Hlen Hb') as Hl. simpl in Hl.
    by rewrite Hl.
Qed.

Lemma allreduce_at_call r rg :
  call_kind (allreduce_at rg) = AllreduceOp ∧ call_range (allreduce_at rg) = rg
  ∧ call_source (allreduce_at rg) = rg.1 ∧ call_valid r (allreduce_at rg) = true
  ∧ receives r (allreduce_at rg) = true.
Proof. by destruct rg. Qed.

Lemma reduce_at_call r rg :
  call_kind (reduce_at (bool_decide (r = 0%nat)) rg) = ReduceOp 0
  ∧ call_range (reduce_at (bool_decide (r = 0%nat)) rg) = rg
  ∧ call_source (reduce_at (bool_decide (r = 0%nat)) rg) = rg.1
  ∧ call_valid r (reduce_at (bool_decide (r = 0%nat)) rg) = true
  ∧ receives r (reduce_at (bool_decide (r = 0%nat)) rg) = bool_decide (r = 0%nat).
Proof.
  destruct rg as [o n]. unfold reduce_at. case_bool_decide as Hr; simpl.
  - subst r. done.
  - unfold call_valid. simpl. rewrite bool_decide_eq_false_2 by lia. done.
Qed.

Variable mms : N.
Hypothesis mms_pos : 0 < mms.
Hypothesis mms_int : (Z.of_N mms ≤ INT_MAX)%Z.

Lemma run_group_uniform (mk : nat → N * N → Collective) (k0 : op_kind)
    (w : nat → bool) ranges (bufs : list (list T)) (L : nat) :
  bufs ≠ [] →
  Forall (λ b, length b = L) bufs →
  (∀ r rg, call_kind (mk r rg) = k0 ∧ call_range (mk r rg) = rg
           ∧ call_source (mk r rg) = rg.1 ∧ call_valid r (mk r rg) = true
           ∧ receives r (mk r rg) = w r) →
  tiles ranges 0 (N.of_nat L) →
  Forall (λ rg, rg.2 ≤ mms) ranges →
  run_group msum to_int ((λ r, mk r <$> ranges) <$> seq 0 (length bufs)) bufs
  = Some (imap (λ r b, if w r then reduce_segments msum L bufs else b) bufs).
Proof.
  intros Hne Hlen Hmk Htiles Hfit. unfold run_group.
  assert (head ((λ r, mk r <$> ranges) <$> seq 0 (length bufs))
          = Some (mk 0%nat <$> ranges)) as ->.
  { destruct bufs; [done|]. done. }
  simpl. rewrite length_fmap.
  rewrite <- (reduced_upto_0 w (reduce_segments msum L bufs) bufs) at 2.
  apply (run_rounds_uniform msum to_int mk k0 w bufs L Hlen Hmk ranges 0 Htiles).
  eapply Forall_impl; [exact Hfit|]. intros rg Hrg. simpl in *.
  apply to_int_small. lia.
Qed.

(** The ranges of a trace of [sumToAll]. *)
Lemma sumToAll_ranges pm size :
  isMultiProc pm = true →
  ∃ ranges,
    sumToAll true mms pm size = Some (allreduce_at <$> ranges)
    ∧ sumToRoot true mms pm size = Some (reduce_at (isRoot pm) <$> ranges)
    ∧ tiles ranges 0 size
    ∧ Forall (λ rg, rg.2 ≤ mms) ranges
    ∧ sumToAll_loop mms (loop_fuel mms size) 0 size = Some (allreduce_at <$> ranges).
Proof.
  intros Hm. destruct (sumToAll_multi mms mms_pos pm size Hm) as (tr & Hall & Hroot & Hloop).
  exists (call_range <$> tr).
  pose proof Hloop as Htr. apply sumToAll_loop_allreduce in Htr.
  rewrite <- Htr. rewrite list_fmap_compose in Hroot.
  repeat split; try done.
  - by apply sumToAll_loop_tiles in Hloop.
  - apply Forall_fmap. by apply sumToAll_loop_counts in Hloop.
Qed.

(** In a group of at least two processes with arrays of one length, every
    array ends up as the position-wise reduction of all arrays. *)
Lemma group_sumToAll_multi (bufs : list (list T)) (L : nat) :
  (1 < length bufs)%nat →
  Forall (λ b, length b = L) bufs →
  group_sumToAll msum true mms (group bufs)
  = Some (imap (λ _ _, reduce_segments msum L bufs) bufs).
Proof.
  intros HP Hlen.
  destruct (sumToAll_ranges (member (length bufs) 0) (N.of_nat L))
    as (ranges & Hall & _ & Htiles & Hfit & _).
  { rewrite isMultiProc_member. by apply bool_decide_eq_true_2. }
  unfold group_sumToAll.
  rewrite (group_traces (sumToAll true mms) (λ _, allreduce_at) ranges bufs L Hlen);
    last first.
  { intros r. rewrite <- Hall. unfold sumToAll. by rewrite !isMultiProc_member. }
  cbn [mbind option_bind]. rewrite snd_group.
  rewrite (run_group_uniform (λ _, allreduce_at) AllreduceOp (λ _, true) ranges bufs L);
    try done.
  - intros ->. simpl in HP. lia.
  - intros r rg. apply allreduce_at_call.
Qed.

(** With [sumToRoot] the array of rank 0 ends up as the reduction, and the
    other arrays are as before. *)
Lemma group_sumToRoot_multi (bufs : list (list T)) (L : nat) :
  (1 < length bufs)%nat →
  Forall (λ b, length b = L) bufs →
  group_sumToRoot msum true mms (group bufs)
  = Some (imap (λ r b, if bool_decide (r = 0%nat)
                       then reduce_segments msum L bufs else b) bufs).
Proof.
  intros HP Hlen.
  destruct (sumToAll_ranges (member (length bufs) 0) (N.of_nat L))
    as (ranges & Hall & _ & Htiles & Hfit & Hloop).
  { rewrite isMultiProc_member. by apply bool_decide_eq_true_2. }
  unfold group_sumToRoot.
  rewrite (group_traces (sumToRoot true mms)
             (λ r, reduce_at (bool_decide (r = 0%nat))) ranges bufs L Hlen); last first.
  { intros r. unfold sumToRoot. rewrite isMultiProc_member.
    rewrite bool_decide_eq_true_2 by done.
    rewrite sumToRoot_loop_map, Hloop, isRoot_member. simpl.
    by rewrite <- list_fmap_compose. }
  cbn [mbind option_bind]. rewrite snd_group.
  rewrite (run_group_uniform (λ r, reduce_at (bool_decide (r = 0%nat))) (ReduceOp 0)
             (λ r, bool_decide (r = 0%nat)) ranges bufs L); try done.
  - intros ->. simpl in HP. lia.
  - intros r rg. apply reduce_at_call.
Qed.

End GroupFacts.

(** ** Consecutive ranges *)

Lemma tiles_within ranges a b c :
  tiles ranges a b → c ∈ ranges → a ≤ c.1 ∧ c.1 + c.2 ≤ b.
Proof.
  revert a. induction ranges as [|[o n] rest IH]; simpl; intros a Ht Hc.
  - by apply elem_of_nil in Hc.
  - destruct Ht as [-> Ht]. pose proof (tiles_le _ _ _ Ht).
    apply elem_of_cons in Hc as [->|Hc]; [simpl; lia|].
    destruct (IH _ Ht Hc). lia.
Qed.

Lemma tiles_cover ranges a b i :
  tiles ranges a b → a ≤ i → i < b → ∃ c, c ∈ ranges ∧ in_chunk i c.
Proof.
  revert a. induction ranges as [|[o n] rest IH]; simpl; intros a Ht Ha Hb; [lia|].
  destruct Ht as [-> Ht].
  destruct (decide (i < a + n)) as [Hi|Hi].
  - exists (a, n). split; [left|]. by split.
  - destruct (IH (a + n) Ht) as (c & Hc & Hin); [lia..|].
    exists c. split; [by right|done].
Qed.

Lemma tiles_unique ranges a b j k c1 c2 i :
  tiles ranges a b →
  ranges !! j = Some c1 → ranges !! k = Some c2 →
  in_chunk i c1 → in_chunk i c2 → j = k.
Proof.
  revert a j k. induction ranges as [|[o n] rest IH]; simpl; intros a j k Ht Hj Hk H1 H2.
  { done. }
  destruct Ht as [-> Ht]. unfold in_chunk in *.
  destruct j as [|j], k as [|k]; simpl in *.
  - done.
  - injection Hj as <-. apply list_elem_of_lookup_2 in Hk.
    destruct (tiles_within _ _ _ _ Ht Hk). simpl in *. lia.
  - injection Hk as <-. apply list_elem_of_lookup_2 in Hj.
    destruct (tiles_within _ _ _ _ Ht Hj). simpl in *. lia.
  - f_equal. by eapply IH.
Qed.

Lemma tiles_sorted ranges a b :
  tiles ranges a b → Forall (λ c, 0 < c.2) (removelast ranges) →
  StronglySorted N.lt (ranges.*1).
Proof.
  revert a. induction ranges as [|[o n] rest IH]; intros a Ht Hpos; [constructor|].
  destruct Ht as [Ho Ht]. simpl in Ho. subst o. csimpl.
  destruct rest as [|c rest]; [repeat constructor|].
  simpl in Hpos. apply Forall_cons in Hpos as [Hn Hpos]. simpl in Hn.
  constructor; [by eapply IH|].
  apply Forall_fmap, Forall_forall. intros c' Hc'.
  destruct (tiles_within _ _ _ _ Ht Hc'). simpl in *. lia.
Qed.

Lemma concat_fragments {T} (buf : list T) ranges a b :
  tiles ranges a b → b ≤ N.of_nat (length buf) →
  concat (fragment buf <$> ranges) = segment (N.to_nat a) (N.to_nat (b - a)) buf.
Proof.
  revert a. induction ranges as [|[o n] rest IH]; csimpl; intros a Ht Hb.
  - subst. rewrite N.sub_diag. done.
  - destruct Ht as [Ho Ht]. simpl in Ho, Ht. subst o. pose proof (tiles_le _ _ _ Ht).
    rewrite (IH _ Ht Hb). unfold fragment, segment. simpl.
    replace (N.to_nat (b - a)) with (N.to_nat n + N.to_nat (b - (a + n)))%nat by lia.
    rewrite <- take_take_drop, drop_drop. do 3 f_equal. lia.
Qed.

(** ** Reductions and initialisation *)

Lemma reduce_segments_single {T} (msum : list T → T) (b : list T) :
  (∀ x, msum [x] = x) → reduce_segments msum (length b) [b] = b.
Proof.
  intros Hsingle. apply list_eq. intros i.
  destruct (decide (i < length b)%nat) as [Hi|Hi].
  - rewrite lookup_reduce_segments by done.
    destruct (lookup_lt_is_Some_2 b i Hi) as [x Hx].
    unfold column. simpl. rewrite Hx. simpl. by rewrite Hsingle.
  - rewrite !lookup_ge_None_2; [done|lia|]. rewrite length_reduce_segments. lia.
Qed.

Lemma group_sumToAll_one {T} (msum : list T → T) mpi mms pm (buf : list T) :
  _size pm = 1%Z →
  sumToAll mpi mms pm (N.of_nat (length buf)) = Some []
  ∧ group_sumToAll msum mpi mms [(pm, buf)] = Some [buf].
Proof.
  intros Hsize.
  assert (sumToAll mpi mms pm (N.of_nat (length buf)) = Some []) as Htr.
  { unfold sumToAll, isMultiProc. rewrite Hsize. by destruct mpi. }
  split; [done|]. unfold group_sumToAll. simpl. by rewrite Htr.
Qed.

Lemma group_sumToRoot_one {T} (msum : list T → T) mpi mms pm (buf : list T) :
  _size pm = 1%Z →
  group_sumToRoot msum mpi mms [(pm, buf)] = Some [buf].
Proof.
  intros Hsize.
  assert (sumToRoot mpi mms pm (N.of_nat (length buf)) = Some []) as Htr.
  { unfold sumToRoot, isMultiProc. rewrite Hsize. by destruct mpi. }
  unfold group_sumToRoot. simpl. by rewrite Htr.
Qed.

(** For every group, [sumToAll] leaves on every rank the position-wise
    reduction of all arrays. *)
Lemma group_sumToAll_result {T} (msum : list T → T) mms (bufs : list (list T)) L :
  0 < mms → (Z.of_N mms ≤ INT_MAX)%Z → (∀ x, msum [x] = x) →
  bufs ≠ [] → Forall (λ b, length b = L) bufs →
  group_sumToAll msum true mms (group bufs)
  = Some (imap (λ _ _, reduce_segments msum L bufs) bufs).
Proof.
  intros Hpos Hint Hsingle Hne Hlen.
  destruct (decide (1 < length bufs)%nat) as [HP|HP].
  { by apply group_sumToAll_multi. }
  destruct bufs as [|b [|b' bufs]]; [done| |simpl in HP; lia].
  apply Forall_cons in Hlen as [<- _].
  unfold group. simpl. rewrite reduce_segments_single by done.
  by apply group_sumToAll_one.
Qed.

Lemma group_sumToRoot_result {T} (msum : list T → T) mms (bufs : list (list T)) L :
  0 < mms → (Z.of_N mms ≤ INT_MAX)%Z → (∀ x, msum [x] = x) →
  bufs ≠ [] → Forall (λ b, length b = L) bufs →
  group_sumToRoot msum true mms (group bufs)
  = Some (imap (λ r b, if bool_decide (r = 0%nat)
                       then reduce_segments msum L bufs else b) bufs).
Proof.
  intros Hpos Hint Hsingle Hne Hlen.
  destruct (decide (1 < length bufs)%nat) as [HP|HP].
  { by apply group_sumToRoot_multi. }
  destruct bufs as [|b [|b' bufs]]; [done| |simpl in HP; lia].
  apply Forall_cons in Hlen as [<- _].
  unfold group. simpl. rewrite reduce_segments_single by done.
  by apply group_sumToRoot_one.
Qed.

Lemma column_replicate {T} (x : T) L i (bufs : list (list T)) :
  (i < L)%nat → Forall (λ b, b = replicate L x) bufs →
  column i bufs = replicate (length bufs) x.
Proof.
  intros Hi Hall. unfold column. induction Hall as [|b bufs -> _ IH]; [done|].
  csimpl. rewrite lookup_replicate_2 by done. csimpl. by rewrite IH.
Qed.

Lemma zsum_replicate_1 P : zsum (replicate P 1%Z) = Z.of_nat P.
Proof. induction P as [|P IH]; [done|]. simpl. rewrite IH. lia. Qed.

(** C3. After [sumToAll] in a group of [P] processes whose arrays have the
    same length [L], the array of every rank holds at every index [i < L] the
    sum over the ranks of the original elements at [i]; arrays that all hold
    the same value [x] everywhere become arrays of the sum of [P] times [x]. *)
Theorem sumToAll_elementwise_sum {T} (msum : list T → T) (mms : N)
    (bufs : list (list T)) (L : nat) :
  0 < mms → (Z.of_N mms ≤ INT_MAX)%Z → (∀ x, msum [x] = x) →
  bufs ≠ [] → Forall (λ b, length b = L) bufs →
  ∃ out,
    group_sumToAll msum true mms (group bufs) = Some out
    ∧ length out = length bufs
    ∧ (∀ r b', out !! r = Some b' →
         length b' = L
         ∧ ∀ i, (i < L)%nat → b' !! i = Some (msum (column i bufs)))
    ∧ (∀ x, Forall (λ b, b = replicate L x) bufs →
         out = replicate (length bufs)
                 (replicate L (msum (replicate (length bufs) x)))).
Proof.
  intros Hpos Hint Hsingle Hne Hlen.
  exists (imap (λ _ _, reduce_segments msum L bufs) bufs).
  split; [by apply group_sumToAll_result|].
  split; [by rewrite length_imap|]. split.
  - intros r b'. rewrite list_lookup_imap. intros Hb.
    apply fmap_Some in Hb as (b & _ & ->).
    split; [apply length_reduce_segments|].
    intros i Hi. by apply lookup_reduce_segments.
  - intros x Hx. apply list_eq. intros r.
    rewrite list_lookup_imap.
    destruct (bufs !! r) as [b|] eqn:Hb; simpl.
    + rewrite lookup_replicate_2 by (by eapply lookup_lt_Some). f_equal.
      apply list_eq. intros i.
      destruct (decide (i < L)%nat) as [Hi|Hi].
      * rewrite lookup_reduce_segments, lookup_replicate_2 by done.
        by rewrite (column_replicate x L).
      * rewrite !lookup_ge_None_2; [done|..].
        -- rewrite length_replicate. lia.
        -- rewrite length_reduce_segments. lia.
    + symmetry. apply lookup_ge_None_2. rewrite length_replicate.
      by apply lookup_ge_None_1.
Qed.

Lemma sumToAll_elementwise_sum_witness :
  group_sumToAll zsum true 2 (group [[1; 1; 1; 1; 1]; [1; 1; 1; 1; 1]; [1; 1; 1; 1; 1]]%Z)
  = Some [[3; 3; 3; 3; 3]; [3; 3; 3; 3; 3]; [3; 3; 3; 3; 3]]%Z.
Proof.
  destruct (sumToAll_elementwise_sum zsum 2
              [[1; 1; 1; 1; 1]; [1; 1; 1; 1; 1]; [1; 1; 1; 1; 1]]%Z 5)
    as (out & Hout & _ & _ & Hones).
  - reflexivity.
  - vm_compute. discriminate.
  - intros x. unfold zsum. simpl. lia.
  - discriminate.
  - repeat constructor.
  - rewrite Hout. f_equal. apply (Hones 1%Z). repeat constructor.
Defined.

(** C4. After [sumToRoot] in a group of [P] processes whose arrays have the
    same length [L], the array of rank 0 holds at every index the sum over the
    ranks of the original elements; of the other arrays only the length is
    stated. *)
Theorem sumToRoot_root_sum {T} (msum : list T → T) (mms : N)
    (bufs : list (list T)) (L : nat) :
  0 < mms → (Z.of_N mms ≤ INT_MAX)%Z → (∀ x, msum [x] = x) →
  bufs ≠ [] → Forall (λ b, length b = L) bufs →
  ∃ out root_buf,
    group_sumToRoot msum true mms (group bufs) = Some out
    ∧ length out = length bufs
    ∧ out !! 0%nat = Some root_buf
    ∧ (∀ i, (i < L)%nat → root_buf !! i = Some (msum (column i bufs)))
    ∧ (∀ x, Forall (λ b, b = replicate L x) bufs →
         root_buf = replicate L (msum (replicate (length bufs) x)))
    ∧ Forall (λ b', length b' = L) out.
Proof.
  intros Hpos Hint Hsingle Hne Hlen.
  exists (imap (λ r b, if bool_decide (r = 0%nat)
                       then reduce_segments msum L bufs else b) bufs).
  exists (reduce_segments msum L bufs).
  split; [by apply group_sumToRoot_result|].
  split; [by rewrite length_imap|].
  split; [by destruct bufs|].
  split; [intros i Hi; by apply lookup_reduce_segments|]. split.
  - intros x Hx. apply list_eq. intros i.
    destruct (decide (i < L)%nat) as [Hi|Hi].
    + rewrite lookup_reduce_segments, lookup_replicate_2 by done.
      by rewrite (column_replicate x L).
    + rewrite !lookup_ge_None_2; [done|..].
      * rewrite length_replicate. lia.
      * rewrite length_reduce_segments. lia.
  - apply Forall_lookup_2. intros r b'. rewrite list_lookup_imap. intros Hb.
    apply fmap_Some in Hb as (b & Hb & ->). case_bool_decide.
    + apply length_reduce_segments.
    + by apply (Forall_lookup_1 _ _ _ _ Hlen Hb).
Qed.

Lemma sumToRoot_root_sum_witness :
  ∃ out,
    group_sumToRoot zsum true 2 (group [[1; 1; 1; 1; 1]; [1; 1; 1; 1; 1]; [1; 1; 1; 1; 1]]%Z)
    = Some out
    ∧ out !! 0%nat = Some [3; 3; 3; 3; 3]%Z.
Proof.
  destruct (sumToRoot_root_sum zsum 2
              [[1; 1; 1; 1; 1]; [1; 1; 1; 1; 1]; [1; 1; 1; 1; 1]]%Z 5)
    as (out & root_buf & Hout & _ & Hroot & _ & Hones & _).
  - reflexivity.
  - vm_compute. discriminate.
  - intros x. unfold zsum. simpl. lia.
  - discriminate.
  - repeat constructor.
  - exists out. split; [exact Hout|].
    rewrite Hroot. f_equal. apply (Hones 1%Z). repeat constructor.
Defined.

Lemma segment_whole {T} (b : list T) : segment 0 (length b) b = b.
Proof. unfold segment. by rewrite drop_0, firstn_all. Qed.

Lemma store_whole {T} (A b : list T) : length A = length b → store 0 A b = A.
Proof.
  intros H. unfold store. simpl. rewrite H, drop_all. apply app_nil_r.
Qed.

Lemma segments_whole {T} (bufs : list (list T)) L :
  Forall (λ b, length b = L) bufs → segment 0 L <$> bufs = bufs.
Proof.
  intros Hlen. induction Hlen as [|b bufs <- _ IH]; [done|].
  csimpl. by rewrite IH, segment_whole.
Qed.

(** A single call of a transport without a count limit. *)
Lemma unbounded_round {T} (msum : list T → T) (mk : nat → N * N → Collective)
    (k0 : op_kind) (w : nat → bool) (bufs : list (list T)) (L : nat) :
  Forall (λ b, length b = L) bufs →
  (∀ r rg, call_kind (mk r rg) = k0 ∧ call_range (mk r rg) = rg
           ∧ call_source (mk r rg) = rg.1 ∧ call_valid r (mk r rg) = true
           ∧ receives r (mk r rg) = w r) →
  collective_round msum Z.of_N
    (imap (λ r b, mk r (0, N.of_nat (length b))) bufs) bufs
  = Some (imap (λ r b, if w r then reduce_segments msum L bufs else b) bufs).
Proof.
  intros Hlen Hmk.
  assert (imap (λ r b, mk r (0, N.of_nat (length b))) bufs
          = (λ r, mk r (0, N.of_nat L)) <$> seq 0 (length bufs)) as ->.
  { apply list_eq. intros i. rewrite list_lookup_imap, list_lookup_fmap.
    destruct (bufs !! i) as [b|] eqn:Hb; simpl.
    - rewrite lookup_seq_lt by (by eapply lookup_lt_Some). simpl.
      by rewrite (Forall_lookup_1 _ _ _ _ Hlen Hb).
    - rewrite lookup_seq_ge; [done|]. by apply lookup_ge_None_1. }
  rewrite (collective_round_uniform msum Z.of_N _ k0 0 (N.of_nat L)); [|done| |].
  - f_equal. apply list_eq. intros i. rewrite !list_lookup_imap.
    destruct (bufs !! i) as [b|] eqn:Hb; [simpl|done].
    destruct (Hmk i (0, N.of_nat L)) as (_ & _ & _ & _ & ->).
    destruct (w i); [|done]. change (N.to_nat 0) with 0%nat.
    rewrite Nat2N.id, segments_whole by done. f_equal.
    apply store_whole. rewrite length_reduce_segments.
    symmetry. apply (Forall_lookup_1 _ _ _ _ Hlen Hb).
  - intros r. destruct (Hmk r (0, N.of_nat L)) as (? & Hrg & ? & ? & ?).
    unfold call_range in Hrg. by injection Hrg as ? ?.
  - eapply Forall_impl; [exact Hlen|]. intros b Hb. simpl in Hb. lia.
Qed.

(** C5. In a group of at least two processes whose arrays have the same
    length, the fragmented reductions of [sumToAll] and [sumToRoot] give, for
    every fragment bound, exactly the arrays that a single collective call
    over the whole arrays gives on a transport without a count limit. *)
Theorem fragmentation_refines_single_call {T} (msum : list T → T) (mms : N)
    (bufs : list (list T)) (L : nat) :
  0 < mms → (Z.of_N mms ≤ INT_MAX)%Z →
  (1 < length bufs)%nat → Forall (λ b, length b = L) bufs →
  group_sumToAll msum true mms (group bufs) = unbounded_Allreduce msum bufs
  ∧ group_sumToRoot msum true mms (group bufs) = unbounded_Reduce msum bufs
  ∧ is_Some (unbounded_Allreduce msum bufs)
  ∧ is_Some (unbounded_Reduce msum bufs).
Proof.
  intros Hpos Hint HP Hlen.
  assert (unbounded_Allreduce msum bufs
          = Some (imap (λ _ _, reduce_segments msum L bufs) bufs)) as HA.
  { unfold unbounded_Allreduce. rewrite <- imap_const.
    apply (unbounded_round msum (λ _, allreduce_at) AllreduceOp (λ _, true) bufs L Hlen).
    intros r rg. apply allreduce_at_call. }
  assert (unbounded_Reduce msum bufs
          = Some (imap (λ r b, if bool_decide (r = 0%nat)
                               then reduce_segments msum L bufs else b) bufs)) as HR.
  { unfold unbounded_Reduce.
    rewrite <- (unbounded_round msum (λ r, reduce_at (bool_decide (r = 0%nat)))
                  (ReduceOp 0) (λ r, bool_decide (r = 0%nat)) bufs L Hlen); [done|].
    intros r rg. apply reduce_at_call. }
  rewrite HA, HR. repeat split; try done.
  - by apply group_sumToAll_multi.
  - by apply group_sumToRoot_multi.
Qed.

Lemma fragmentation_refines_single_call_witness :
  group_sumToAll zsum true 2 (group [[1; 2; 3; 4; 5]; [10; 20; 30; 40; 50]]%Z)
  = unbounded_Allreduce zsum [[1; 2; 3; 4; 5]; [10; 20; 30; 40; 50]]%Z
  ∧ group_sumToRoot zsum true 2 (group [[1; 2; 3; 4; 5]; [10; 20; 30; 40; 50]]%Z)
    = unbounded_Reduce zsum [[1; 2; 3; 4; 5]; [10; 20; 30; 40; 50]]%Z.
Proof.
  destruct (fragmentation_refines_single_call zsum 2
              [[1; 2; 3; 4; 5]; [10; 20; 30; 40; 50]]%Z 5) as (HA & HR & _).
  - reflexivity.
  - vm_compute. discriminate.
  - simpl. lia.
  - repeat constructor.
  - split; [exact HA|exact HR].
Defined.

(** C8. With exactly one participant, [sumToAll] issues no collective call and
    the array is unchanged, with or without MPI in the build. *)
Theorem sumToAll_single_participant {T} (msum : list T → T) (mpi : bool)
    (mms : N) (pm : ProcessManager) (buf : list T) :
  _size pm = 1%Z →
  sumToAll mpi mms pm (N.of_nat (length buf)) = Some []
  ∧ group_sumToAll msum mpi mms [(pm, buf)] = Some [buf].
Proof. apply group_sumToAll_one. Qed.

Lemma sumToAll_single_participant_witness :
  group_sumToAll zsum true maxMessageSize [(static_init, [4; 5; 6]%Z)]
  = Some [[4; 5; 6]%Z].
Proof.
  apply (sumToAll_single_participant zsum true maxMessageSize static_init [4; 5; 6]%Z).
  reflexivity.
Defined.

Lemma two_fragments mms size :
  0 < mms → mms < size → (2 ≤ S (N.to_nat ((size - 1) / mms)))%nat.
Proof.
  intros Hpos Hlt.
  assert (1 ≤ (size - 1) / mms) as H.
  { apply N.div_le_lower_bound; lia. }
  revert H. generalize ((size - 1) / mms). intros; lia.
Qed.

(** C2. For an array longer than the bound, [sumToAll] and [sumToRoot] issue
    one collective call per range of a list of ranges that are no longer than
    the bound, are consecutive from offset 0 to the length of the array and
    have strictly increasing offsets; each call contributes from and stores
    into its own range; every index lies in exactly one range and the
    fragments concatenate to the array. *)
Theorem fragmentation_splits_buffer {T} (mms : N) (pm : ProcessManager)
    (buf : list T) :
  0 < mms → isMultiProc pm = true → mms < N.of_nat (length buf) →
  ∃ ranges,
    sumToAll true mms pm (N.of_nat (length buf)) = Some (allreduce_at <$> ranges)
    ∧ sumToRoot true mms pm (N.of_nat (length buf))
      = Some (reduce_at (isRoot pm) <$> ranges)
    ∧ (2 ≤ length ranges)%nat
    ∧ Forall (λ rg, rg.2 ≤ mms) ranges
    ∧ tiles ranges 0 (N.of_nat (length buf))
    ∧ StronglySorted N.lt (ranges.*1)
    ∧ (∀ rg, call_source (allreduce_at rg) = rg.1
             ∧ call_range (allreduce_at rg) = rg
             ∧ call_source (reduce_at (isRoot pm) rg) = rg.1
             ∧ call_range (reduce_at (isRoot pm) rg) = rg)
    ∧ concat (fragment buf <$> ranges) = buf
    ∧ (∀ i, i < N.of_nat (length buf) →
         ∃ k rg, ranges !! k = Some rg ∧ in_chunk i rg
                 ∧ ∀ k' rg', ranges !! k' = Some rg' → in_chunk i rg' → k' = k).
Proof.
  intros Hpos Hm Hlong.
  destruct (sumToAll_ranges mms Hpos pm (N.of_nat (length buf)) Hm)
    as (ranges & Hall & Hroot & Htiles & Hfit & Hloop).
  exists ranges. repeat split; try done.
  - pose proof Hloop as Hn. apply sumToAll_loop_length in Hn; [|done].
    rewrite length_fmap in Hn. rewrite Hn. by apply two_fragments.
  - apply sumToAll_loop_sorted in Hloop as [_ Hs]; [|done].
    rewrite <- list_fmap_compose in Hs. exact Hs.
  - by destruct rg.
  - by destruct (isRoot pm), rg.
  - by destruct (isRoot pm), rg.
  - rewrite (concat_fragments buf ranges 0 (N.of_nat (length buf))); [|done|lia].
    rewrite N.sub_0_r, Nat2N.id. apply segment_whole.
  - intros i Hi.
    destruct (tiles_cover ranges 0 _ i Htiles) as (rg & Hrg & Hin); [lia|done|].
    apply list_elem_of_lookup in Hrg as [k Hk].
    exists k, rg. repeat split; try done; try apply Hin.
    intros k' rg' Hk' Hin'. by eapply tiles_unique.
Qed.

Lemma fragmentation_splits_buffer_witness :
  sumToAll true 2 (member 3 1) 5
  = Some [MPI_Allreduce MPI_IN_PLACE 0 2; MPI_Allreduce MPI_IN_PLACE 2 2;
          MPI_Allreduce MPI_IN_PLACE 4 1]
  ∧ ∃ ranges, sumToRoot true 2 (member 3 1) 5
              = Some (reduce_at (isRoot (member 3 1)) <$> ranges)
              ∧ concat (fragment [10; 20; 30; 40; 50]%Z <$> ranges)
                = [10; 20; 30; 40; 50]%Z.
Proof.
  split; [reflexivity|].
  destruct (fragmentation_splits_buffer 2 (member 3 1) [10; 20; 30; 40; 50]%Z)
    as (ranges & _ & Hroot & _ & _ & _ & _ & _ & Hcat & _).
  - reflexivity.
  - reflexivity.
  - reflexivity.
  - exists ranges. split; [exact Hroot|exact Hcat].
Defined.

Lemma sumToAll_total mpi mms pm size :
  0 < mms →
  ∃ ranges,
    sumToAll mpi mms pm size = Some (allreduce_at <$> ranges)
    ∧ sumToRoot mpi mms pm size = Some (reduce_at (isRoot pm) <$> ranges)
    ∧ Forall (λ rg, rg.2 ≤ mms) ranges.
Proof.
  intros Hpos.
  destruct mpi, (isMultiProc pm) eqn:Hm;
    try (exists []; unfold sumToAll, sumToRoot; rewrite ?Hm; by repeat split).
  destruct (sumToAll_ranges mms Hpos pm size Hm) as (ranges & ? & ? & _ & ? & _).
  by exists ranges.
Qed.

(** C9. Every count that [sumToAll] and [sumToRoot] pass to a collective call
    is at most [INT_MAX - 2]; its conversion to [int] keeps its value, which
    is nonnegative and below [INT_MAX]. *)
Theorem fragment_counts_fit_int (mpi : bool) (pm : ProcessManager) (size : N) :
  ∃ trA trR,
    sumToAll mpi maxMessageSize pm size = Some trA
    ∧ sumToRoot mpi maxMessageSize pm size = Some trR
    ∧ Forall (λ c, (Z.of_N (call_count c) ≤ INT_MAX - 2)%Z
                   ∧ to_int (call_count c) = Z.of_N (call_count c)
                   ∧ (0 ≤ to_int (call_count c) < INT_MAX)%Z) (trA ++ trR).
Proof.
  destruct (sumToAll_total mpi maxMessageSize pm size) as (ranges & HA & HR & Hfit);
    [done|].
  eexists _, _. split; [exact HA|]. split; [exact HR|].
  assert (∀ n : N, n ≤ maxMessageSize →
            (Z.of_N n ≤ INT_MAX - 2)%Z ∧ to_int n = Z.of_N n
            ∧ (0 ≤ to_int n < INT_MAX)%Z) as Hfits.
  { intros n Hn. rewrite maxMessageSize_eq in Hn.
    rewrite to_int_small by (unfold INT_MAX; lia). unfold INT_MAX. lia. }
  apply Forall_app. split; apply Forall_fmap;
    (eapply Forall_impl; [exact Hfit|]); intros [o n] Hn; simpl in *.
  - by apply Hfits.
  - destruct (isRoot pm); by apply Hfits.
Qed.

Lemma counts_allreduce ranges : call_count <$> (allreduce_at <$> ranges) = ranges.*2.
Proof. rewrite <- list_fmap_compose. apply list_fmap_ext. by intros ? [] _. Qed.

Lemma counts_reduce root ranges :
  call_count <$> (reduce_at root <$> ranges) = ranges.*2.
Proof.
  rewrite <- list_fmap_compose. apply list_fmap_ext. intros ? [] _. by destruct root.
Qed.

(** C10. The counts of the collective calls that [sumToAll] and [sumToRoot]
    issue are the same for two processes of groups of the same size that pass
    arrays of the same length, whatever their ranks, and the same for the two
    functions; in a group of several processes an empty array gives exactly
    one call, of count 0. *)
Theorem fragment_sequence_determined_by_length (mpi : bool) (mms : N)
    (pm1 pm2 : ProcessManager) (size : N) :
  0 < mms → _size pm1 = _size pm2 →
  ∃ counts,
    fmap (M:=list) call_count <$> sumToAll mpi mms pm1 size = Some counts
    ∧ fmap (M:=list) call_count <$> sumToAll mpi mms pm2 size = Some counts
    ∧ fmap (M:=list) call_count <$> sumToRoot mpi mms pm1 size = Some counts
    ∧ fmap (M:=list) call_count <$> sumToRoot mpi mms pm2 size = Some counts
    ∧ (mpi = true → isMultiProc pm1 = true → size = 0 → counts = [0]).
Proof.
  intros Hpos Hsize.
  destruct (sumToAll_total mpi mms pm1 size Hpos) as (ranges & HA1 & HR1 & _).
  destruct (sumToAll_total mpi mms pm2 size Hpos) as (ranges2 & HA2 & HR2 & _).
  assert (sumToAll mpi mms pm2 size = sumToAll mpi mms pm1 size) as Heq.
  { unfold sumToAll, isMultiProc. by rewrite Hsize. }
  assert (ranges2.*2 = ranges.*2) as Hranges.
  { rewrite HA1, HA2 in Heq. injection Heq as Heq.
    by rewrite <- (counts_allreduce ranges2), Heq, counts_allreduce. }
  exists (ranges.*2). rewrite HA1, HA2, HR1, HR2. simpl.
  rewrite !counts_allreduce, !counts_reduce, Hranges. repeat split.
  intros -> Hm ->. unfold sumToAll, loop_fuel in HA1. rewrite Hm in HA1.
  simpl in HA1. destruct (N.ltb_spec mms 0) as [?|_]; [lia|].
  injection HA1 as HA1. destruct ranges as [|[o n] [|? ?]]; try done.
  by injection HA1 as <- <-.
Qed.

Lemma fragment_sequence_determined_by_length_witness :
  fmap (M:=list) call_count <$> sumToAll true maxMessageSize (member 4 0) 5000000000
  = fmap (M:=list) call_count <$> sumToRoot true maxMessageSize (member 4 3) 5000000000.
Proof.
  destruct (fragment_sequence_determined_by_length true maxMessageSize
              (member 4 0) (member 4 3) 5000000000)
    as (counts & -> & _ & _ & -> & _); reflexivity.
Defined.

(** C7, at a concrete input: the MPI library is initialised already and its
    thread level is below funneled, yet [initialize] returns normally. *)
Lemma initialize_skips_check_when_initialized :
  let env := mkMPI true MPI_THREAD_SINGLE 4 2 in
  (mpi_provided env < MPI_THREAD_FUNNELED)%Z
  ∧ initialize true env static_init = (Returned, env, static_init).
Proof. split; reflexivity. Qed.

(** C7, amended. When the MPI library is not initialised yet, [initialize]
    throws a fatal error if and only if the thread level the library grants
    is below funneled, and otherwise returns with the size and rank of the
    process group established; when the library is initialised already, or
    the build has no MPI, it returns normally and changes nothing. *)
Theorem initialize_funneled_check (env : MPI) (pm : ProcessManager) :
  (mpi_initialized env = false →
     ((∃ msg, (initialize true env pm).1.1 = Thrown msg)
      ↔ (mpi_provided env < MPI_THREAD_FUNNELED)%Z)
     ∧ ((MPI_THREAD_FUNNELED ≤ mpi_provided env)%Z →
        initialize true env pm
        = (Returned, MPI_Init_thread env,
           {| _size := mpi_comm_size env; _rank := mpi_comm_rank env |}))
     ∧ ((mpi_provided env < MPI_THREAD_FUNNELED)%Z →
        (initialize true env pm).2 = pm))
  ∧ (mpi_initialized env = true → initialize true env pm = (Returned, env, pm))
  ∧ initialize false env pm = (Returned, env, pm).
Proof.
  unfold initialize. split; [|split; [|done]].
  - intros ->. simpl.
    destruct (Z.ltb_spec (mpi_provided env) MPI_THREAD_FUNNELED) as [Hlt|Hge]; simpl.
    + split; [split; [done|eauto]|]. split; [lia|done].
    + split; [split; [by intros [? ?]|lia]|]. split; [done|lia].
  - by intros ->.
Qed.

Lemma initialize_funneled_check_witness :
  initialize true (mkMPI false MPI_THREAD_MULTIPLE 4 2) static_init
  = (Returned, mkMPI true MPI_THREAD_MULTIPLE 4 2, mkPM 4 2)
  ∧ ∃ msg, (initialize true (mkMPI false MPI_THREAD_SINGLE 4 2) static_init).1.1
           = Thrown msg.
Proof.
  split.
  - apply (initialize_funneled_check (mkMPI false MPI_THREAD_MULTIPLE 4 2) static_init);
      [reflexivity|]. vm_compute. discriminate.
  - apply (initialize_funneled_check (mkMPI false MPI_THREAD_SINGLE 4 2) static_init);
      reflexivity.
Defined.

(** ** The chunk dispatcher *)

Lemma tiles_snoc ranges a b n :
  tiles ranges a b → tiles (ranges ++ [(b, n)]) a (b + n).
Proof.
  revert a. induction ranges as [|[o m] rest IH]; simpl; intros a.
  - by intros ->.
  - intros [-> H]. split; [done|]. by apply IH.
Qed.

Lemma sum_weight_insert (ths : list worker) t old w :
  ths !! t = Some old →
  (sum_list (weight <$> <[t:=w]> ths) + weight old
   = sum_list (weight <$> ths) + weight w)%nat.
Proof.
  revert t. induction ths as [|x ths IH]; intros [|t] Ht; simplify_eq/=; [lia|].
  specialize (IH _ Ht). lia.
Qed.

Lemma in_flight_insert (ths : list worker) t old w :
  ths !! t = Some old →
  ∃ rest,
    in_flight ths ≡ₚ option_list (chunk_of old) ++ rest
    ∧ in_flight (<[t:=w]> ths) ≡ₚ option_list (chunk_of w) ++ rest.
Proof.
  unfold in_flight.
  revert t. induction ths as [|x ths IH]; intros [|t] Ht; simplify_eq/=.
  - exists (omap chunk_of ths). split.
    + by destruct (chunk_of old).
    + by destruct (chunk_of w).
  - destruct (IH _ Ht) as (rest & H1 & H2).
    exists (option_list (chunk_of x) ++ rest). split.
    + destruct (chunk_of x); simpl; rewrite H1; [|done].
      by rewrite Permutation_middle.
    + destruct (chunk_of x); simpl; rewrite H2; [|done].
      by rewrite Permutation_middle.
Qed.

Lemma stopped_insert (ths : list worker) t w :
  Stopped ∈ <[t:=w]> ths → w = Stopped ∨ Stopped ∈ ths.
Proof.
  intros H. apply list_elem_of_lookup in H as [i Hi].
  destruct (decide (i = t)) as [->|Hne].
  - destruct (decide (t < length ths)%nat).
    + rewrite list_lookup_insert_eq in Hi by done. left. congruence.
    + rewrite list_insert_ge in Hi by lia. right. by eapply list_elem_of_lookup_2.
  - rewrite list_lookup_insert_ne in Hi by done. right.
    by eapply list_elem_of_lookup_2.
Qed.

Section DispatchFacts.

Context {E : Type}.
Variable target : N → N → option E.
Variable policy : N → nat → N.

Lemma in_flight_replicate n w : chunk_of w = None → in_flight (replicate n w) = [].
Proof. intros Hw. unfold in_flight. induction n; csimpl; [done|]. by rewrite Hw. Qed.

Lemma dispatch_inv_call threadCount maxIndex :
  dispatch_inv target (call policy threadCount maxIndex).
Proof.
  unfold call, dispatch_inv. destruct (N.eqb_spec maxIndex 0) as [->|Hne]; simpl.
  - rewrite in_flight_replicate by done. repeat split; try done; auto.
  - rewrite in_flight_replicate by done. repeat split; try done.
    + right. lia.
    + lia.
    + intros H%elem_of_replicate. by destruct H.
Qed.

Lemma dispatch_inv_step d t :
  dispatch_inv target d → dispatch_inv target (step target d t).
Proof.
  intros (Hcs & Htiles & Hsizes & Hcap & Hperm & Hraised & Hdone & Hstop).
  unfold step. destruct (threads d !! t) as [[|first count|]|] eqn:Ht;
    [| |by repeat split..].
  - (* an idle thread *)
    destruct (in_flight_insert (threads d) t Idle Stopped Ht) as (r1 & Hold & Hnew1).
    destruct (captured d) as [e0|] eqn:Hc.
    + unfold set_thread, dispatch_inv; simpl. rewrite Hc.
      repeat split; try done.
      * by rewrite Hnew1, Hperm, Hold.
      * intros _. right. intros Hr. by rewrite Hr in Hcap.
    + unfold claim. destruct (N.leb_spec (_maxIndex d) (_nextIndex d)) as [Hle|Hlt];
        unfold dispatch_inv; simpl; rewrite Hc.
      * repeat split; try done.
        -- by replace (N.min (_nextIndex d + _chunkSize d) (_maxIndex d))
             with (N.min (_nextIndex d) (_maxIndex d)) by lia.
        -- by rewrite Hnew1, Hperm, Hold.
        -- intros _. left. lia.
      * destruct Hcs as [?|Hcs]; [lia|].
        destruct (in_flight_insert (threads d) t Idle
                    (Working (_nextIndex d)
                       (N.min (_chunkSize d) (_maxIndex d - _nextIndex d))) Ht)
          as (r2 & Hold2 & Hnew2).
        repeat split; try done.
        -- by right.
        -- replace (N.min (_nextIndex d + _chunkSize d) (_maxIndex d))
             with (_nextIndex d + N.min (_chunkSize d) (_maxIndex d - _nextIndex d))
             by lia.
           apply tiles_snoc.
           by replace (N.min (_nextIndex d) (_maxIndex d)) with (_nextIndex d)
             in Htiles by lia.
        -- apply Forall_app. split; [done|]. apply Forall_singleton. simpl. lia.
        -- rewrite Hnew2, Hperm, Hold2. simpl. solve_Permutation.
        -- intros Hs. apply stopped_insert in Hs as [?|Hs]; [done|].
           destruct (Hstop Hs); [left; lia|by right].
  - (* a thread that ends its callback *)
    unfold finish. destruct (target first count) as [e|] eqn:Htarget.
    + destruct (in_flight_insert (threads d) t _ Stopped Ht) as (r1 & Hold & Hnew).
      unfold dispatch_inv; simpl. repeat split; try done.
      * destruct (raised d) as [|[c0 e0] rest]; simpl in *; by rewrite Hcap.
      * rewrite Hnew, Hperm, Hold. simpl. rewrite fmap_app. simpl.
        solve_Permutation.
      * apply Forall_app. split; [done|]. by apply Forall_singleton.
      * intros _. right. by destruct (raised d).
    + destruct (in_flight_insert (threads d) t _ Idle Ht) as (r1 & Hold & Hnew).
      unfold dispatch_inv; simpl. repeat split; try done.
      * rewrite Hnew, Hperm, Hold. simpl. solve_Permutation.
      * apply Forall_app. split; [done|]. by apply Forall_singleton.
      * intros Hs. apply stopped_insert in Hs as [?|Hs]; [done|]. by apply Hstop.
Qed.

Lemma dispatch_inv_run sched d :
  dispatch_inv target d → dispatch_inv target (run target sched d).
Proof.
  revert d. induction sched as [|t sched IH]; intros d Hd; [done|].
  simpl. by apply IH, dispatch_inv_step.
Qed.


Lemma step_frame d t :
  _maxIndex (step target d t) = _maxIndex d
  ∧ _chunkSize (step target d t) = _chunkSize d
  ∧ length (threads (step target d t)) = length (threads d).
Proof.
  unfold step, claim, finish, set_thread.
  destruct (threads d !! t) as [[|first count|]|]; try done.
  - destruct (captured d); simpl; [by rewrite length_insert|].
    destruct (_maxIndex d <=? _nextIndex d); simpl; by rewrite length_insert.
  - destruct (target first count); simpl; by rewrite length_insert.
Qed.

Lemma run_frame sched d :
  _maxIndex (run target sched d) = _maxIndex d
  ∧ _chunkSize (run target sched d) = _chunkSize d
  ∧ length (threads (run target sched d)) = length (threads d).
Proof.
  revert d. induction sched as [|t sched IH]; intros d; [done|].
  simpl. destruct (IH (step target d t)) as (-> & -> & ->). apply step_frame.
Qed.

Lemma call_frame threadCount maxIndex :
  _maxIndex (call (E:=E) policy threadCount maxIndex) = maxIndex
  ∧ length (threads (call (E:=E) policy threadCount maxIndex)) = threadCount.
Proof.
  unfold call. destruct (maxIndex =? 0); simpl; by rewrite length_replicate.
Qed.

Lemma joined_stopped (d : Dispatch (E:=E)) w :
  joined d = true → w ∈ threads d → w = Stopped.
Proof.
  unfold joined. intros Hj Hw. rewrite forallb_forall in Hj.
  apply list_elem_of_In, Hj in Hw. by destruct w.
Qed.

Lemma joined_in_flight (d : Dispatch (E:=E)) : joined d = true → in_flight (threads d) = [].
Proof.
  intros Hj. pose proof (λ w, joined_stopped d w Hj) as Hall. unfold in_flight.
  induction (threads d) as [|w ths IH]; [done|].
  csimpl. rewrite (Hall w) by left. simpl. apply IH. intros w' Hw'. apply Hall. by right.
Qed.

Lemma step_joined d t : joined d = true → step target d t = d.
Proof.
  intros Hj. unfold step. destruct (threads d !! t) as [w|] eqn:Ht; [|done].
  apply list_elem_of_lookup_2, (joined_stopped d w Hj) in Ht. by subst w.
Qed.

(** A step of a live thread uses up some of the measure. *)
Lemma step_measure d t :
  dispatch_inv target d → live d t = true →
  (measure (step target d t) < measure d)%nat.
Proof.
  intros (Hcs & _) Hlive. unfold live in Hlive. unfold step, measure.
  destruct (threads d !! t) as [[|first count|]|] eqn:Ht; try done.
  - destruct (captured d).
    + simpl. pose proof (sum_weight_insert _ _ _ Stopped Ht). simpl in *. lia.
    + unfold claim. destruct (N.leb_spec (_maxIndex d) (_nextIndex d)); simpl.
      * pose proof (sum_weight_insert _ _ _ Stopped Ht). simpl in *. lia.
      * pose proof (sum_weight_insert _ _ _
          (Working (_nextIndex d) (N.min (_chunkSize d) (_maxIndex d - _nextIndex d)))
          Ht). simpl in *. lia.
  - unfold finish. destruct (target first count); simpl.
    + pose proof (sum_weight_insert _ _ _ Stopped Ht). simpl in *. lia.
    + pose proof (sum_weight_insert _ _ _ Idle Ht). simpl in *. lia.
Qed.

Lemma find_live_None (d : Dispatch (E:=E)) :
  list_find (λ w, stopped w = false) (threads d) = None → joined d = true.
Proof.
  intros H. apply list_find_None in H. unfold joined. apply forallb_forall.
  intros w Hw. apply list_elem_of_In in Hw.
  pose proof (Forall_forall (λ w, ¬ stopped w = false) (threads d)) as [Hf _].
  specialize (Hf H w Hw). by destruct (stopped w).
Qed.

Lemma find_live_Some (d : Dispatch (E:=E)) t w :
  list_find (λ w, stopped w = false) (threads d) = Some (t, w) → live d t = true.
Proof.
  intros H. apply list_find_Some in H as (Ht & Hw & _).
  unfold live. rewrite Ht. by destruct w.
Qed.

(** Running the first live thread joins all threads within [measure] steps. *)
Lemma run_first_live_joined fuel d :
  dispatch_inv target d → (measure d ≤ fuel)%nat →
  joined (run_first_live target fuel d) = true.
Proof.
  revert d. induction fuel as [|fuel IH]; intros d Hinv Hfuel; simpl.
  - destruct (list_find (λ w, stopped w = false) (threads d)) as [[t w]|] eqn:Hfind.
    + apply find_live_Some in Hfind.
      pose proof (step_measure d t Hinv Hfind). lia.
    + by apply find_live_None.
  - destruct (list_find (λ w, stopped w = false) (threads d)) as [[t w]|] eqn:Hfind.
    + apply find_live_Some in Hfind.
      pose proof (step_measure d t Hinv Hfind).
      apply IH; [by apply dispatch_inv_step|lia].
    + by apply find_live_None.
Qed.

Lemma run_first_live_run fuel d :
  ∃ sched, run_first_live target fuel d = run target sched d.
Proof.
  revert d. induction fuel as [|fuel IH]; intros d; simpl; [by exists []|].
  destruct (list_find (λ w, stopped w = false) (threads d)) as [[t w]|]; [|by exists []].
  destruct (IH (step target d t)) as [sched Hs]. by exists (t :: sched).
Qed.

(** From every state reached, the dispatch can run to its end. *)
Lemma dispatch_completes threadCount maxIndex sched :
  ∃ sched',
    is_Some (dispatch_result
               (run target (sched ++ sched') (call policy threadCount maxIndex))).
Proof.
  set (d := run target sched (call policy threadCount maxIndex)).
  assert (dispatch_inv target d) as Hinv
    by apply dispatch_inv_run, dispatch_inv_call.
  destruct (run_first_live_run (measure d) d) as [sched' Hs].
  exists sched'. unfold run in *. rewrite foldl_app. fold d. rewrite <- Hs.
  unfold dispatch_result. by rewrite run_first_live_joined.
Qed.

End DispatchFacts.

Lemma tiles_partitions chunks maxIndex :
  tiles chunks 0 maxIndex → Forall (λ c, 0 < c.2) chunks →
  partitions chunks maxIndex.
Proof.
  intros Ht Hpos. repeat split.
  - intros i Hi. apply (tiles_cover chunks 0 maxIndex i Ht); [lia|done].
  - by apply (Forall_forall (λ c, 0 < c.2) chunks).
  - by apply (tiles_within chunks 0 maxIndex c Ht).
  - intros j k c1 c2 i. by apply (tiles_unique chunks 0 maxIndex).
Qed.

Lemma tiles_empty chunks a : tiles chunks a a → Forall (λ c, 0 < c.2) chunks → chunks = [].
Proof.
  destruct chunks as [|[o n] rest]; [done|]. simpl. intros [-> Ht] Hpos.
  apply Forall_cons in Hpos as [Hn _]. apply tiles_le in Ht. simpl in *. lia.
Qed.

(** C1, at a concrete input: one thread, two indices in chunks of one, and a
    callback that raises on the first chunk. The dispatch ends with the error
    after claiming [0, 1) only, so index 1 lies in no claimed chunk. *)
Lemma dispatch_abandons_chunks_on_error :
  let target := λ first _ : N, if first =? 0 then Some "boom"%string else None in
  let d := run target [0; 0]%nat (call (λ _ _, 1) 1 2) in
  dispatch_result d = Some (Raised "boom"%string)
  ∧ claimed d = [(0, 1)]
  ∧ ¬ partitions (claimed d) 2.
Proof.
  split; [reflexivity|]. split; [reflexivity|].
  intros (Hcover & _). destruct (Hcover 1) as (c & Hc & Hin); [reflexivity|].
  simpl in Hc. apply list_elem_of_singleton in Hc. subst c.
  destruct Hin as [_ Hin]. simpl in Hin. lia.
Qed.

(** C1, amended. In every dispatch over [maxIndex >= 0] indices, whatever the
    schedule, the callback and the outcome, the claimed chunks are not empty,
    lie in [0, maxIndex), do not overlap and cover [0, m) without a gap, where
    [m] is the smaller of the cursor and [maxIndex]; none is claimed when
    [maxIndex = 0]; each has the nominal chunk size or is shorter and ends at
    [maxIndex]. They cover, and so partition, all of [0, maxIndex) as soon as
    the cursor has reached [maxIndex], and in particular whenever a dispatch
    with at least one thread ends without a callback error; the callback has
    then run once on each chunk. *)
Theorem dispatch_claimed_chunks_partition {E : Type} (target : N → N → option E)
    (policy : N → nat → N) (threadCount : nat) (maxIndex : N) (sched : list nat) :
  let d := run target sched (call policy threadCount maxIndex) in
  (∀ c, c ∈ claimed d → 0 < c.2 ∧ c.1 + c.2 ≤ maxIndex)
  ∧ (∀ j k c1 c2 i, claimed d !! j = Some c1 → claimed d !! k = Some c2 →
       in_chunk i c1 → in_chunk i c2 → j = k)
  ∧ (∀ i, i < N.min (_nextIndex d) maxIndex → ∃ c, c ∈ claimed d ∧ in_chunk i c)
  ∧ (maxIndex = 0 → claimed d = [])
  ∧ Forall (λ c, c.2 ≤ _chunkSize d
                 ∧ (c.2 = _chunkSize d ∨ c.1 + c.2 = maxIndex)) (claimed d)
  ∧ (maxIndex ≤ _nextIndex d → partitions (claimed d) maxIndex)
  ∧ ((1 ≤ threadCount)%nat → dispatch_result d = Some Done →
       partitions (claimed d) maxIndex ∧ completed d ≡ₚ claimed d).
Proof.
  intros d.
  assert (dispatch_inv target d) as Hinv
    by apply dispatch_inv_run, dispatch_inv_call.
  destruct Hinv as (_ & Htiles & Hsizes & Hcap & Hperm & _ & _ & Hstop).
  destruct (run_frame target sched (call policy threadCount maxIndex))
    as (Hmax & _ & Hlen).
  destruct (call_frame (E:=E) policy threadCount maxIndex) as (Hmax0 & Hlen0).
  fold d in Hmax, Hlen. rewrite Hmax0 in Hmax. rewrite Hlen0 in Hlen.
  rewrite Hmax in *.
  assert (Forall (λ c : Chunk, 0 < c.2) (claimed d)) as Hpos.
  { eapply Forall_impl; [exact Hsizes|]. by intros c (? & _). }
  assert (maxIndex ≤ _nextIndex d → partitions (claimed d) maxIndex) as Hfull.
  { intros Hle. rewrite N.min_r in Htiles by done. by apply tiles_partitions. }
  split.
  { intros c Hc. split; [exact (proj1 (Forall_forall _ _) Hpos c Hc)|].
    destruct (tiles_within _ _ _ _ Htiles Hc). lia. }
  split; [intros j k c1 c2 i; by apply (tiles_unique _ _ _ _ _ _ _ _ Htiles)|].
  split; [intros i Hi; apply (tiles_cover _ 0 _ i Htiles); [lia|done]|].
  split.
  { intros ->. rewrite N.min_0_r in Htiles. by apply (tiles_empty _ 0). }
  split; [eapply Forall_impl; [exact Hsizes|]; by intros c (_ & ? & ?)|].
  split; [exact Hfull|].
  intros Hthreads Hres. unfold dispatch_result in Hres.
  destruct (joined d) eqn:Hj; [|done].
  destruct (captured d) eqn:Hc; [done|].
  assert (raised d = []) as Hraised by (by destruct (raised d)).
  assert (Stopped ∈ threads d) as Hs.
  { destruct (threads d) as [|w ths] eqn:Hths; [simpl in Hlen; lia|].
    assert (w = Stopped) as ->; [|left].
    apply (joined_stopped d w Hj). rewrite Hths. left. }
  destruct (Hstop Hs) as [Hle|?]; [|done].
  split; [by apply Hfull|].
  rewrite Hperm, Hraised, joined_in_flight by done. simpl. by rewrite app_nil_r.
Qed.

Lemma dispatch_claimed_chunks_partition_witness :
  (let d := run (λ _ _, @None string) [0; 1; 1; 0; 1; 0; 1; 0; 0; 1; 0; 0]%nat
              (call (standard_policy 2) 2 10) in
   claimed d = [(0, 2); (2, 2); (4, 2); (6, 2); (8, 2)]
   ∧ partitions (claimed d) 10)
  ∧ (let target := λ first _ : N, if first =? 1 then Some "boom"%string else None in
     let d := run target [0; 0; 0; 0]%nat (call (λ _ _, 1) 1 2) in
     dispatch_result d = Some (Raised "boom"%string)
     ∧ claimed d = [(0, 1); (1, 1)]
     ∧ partitions (claimed d) 2).
Proof.
  split.
  - split; [reflexivity|].
    destruct (dispatch_claimed_chunks_partition (λ _ _, @None string)
                (standard_policy 2) 2 10 [0; 1; 1; 0; 1; 0; 1; 0; 0; 1; 0; 0]%nat)
      as (_ & _ & _ & _ & _ & _ & Hdone).
    apply Hdone; [simpl; lia|reflexivity].
  - split; [reflexivity|]. split; [reflexivity|].
    destruct (dispatch_claimed_chunks_partition
                (λ first _ : N, if first =? 1 then Some "boom"%string else None)
                (λ _ _, 1) 1 2 [0; 0; 0; 0]%nat)
      as (_ & _ & _ & _ & _ & Hfull & _).
    apply Hfull. vm_compute. intros H. discriminate H.
Defined.

(** C6. From every state it reaches a dispatch can run to its end; and when
    it has ended, all threads have stopped, the caller receives the first
    error that a callback raised and nothing else (or a normal return when
    none raised), every raised error comes from the callback on a claimed
    chunk, every claimed chunk has had its callback run to its end, and a
    claimed chunk on which the callback raises makes the dispatch end with an
    error. *)
Theorem dispatch_error_propagated_once {E : Type} (target : N → N → option E)
    (policy : N → nat → N) (threadCount : nat) (maxIndex : N) (sched : list nat) :
  let d := run target sched (call policy threadCount maxIndex) in
  (∃ sched', is_Some (dispatch_result
                        (run target (sched ++ sched')
                           (call policy threadCount maxIndex))))
  ∧ ∀ r, dispatch_result d = Some r →
      joined d = true
      ∧ r = match raised d with [] => Done | (_, e) :: _ => Raised e end
      ∧ Forall (λ ce, ce.1 ∈ claimed d ∧ target ce.1.1 ce.1.2 = Some ce.2) (raised d)
      ∧ claimed d ≡ₚ completed d ++ (raised d).*1
      ∧ Forall (λ c, target c.1 c.2 = None) (completed d)
      ∧ ((∃ c, c ∈ claimed d ∧ is_Some (target c.1 c.2)) → ∃ e, r = Raised e).
Proof.
  intros d. split; [apply dispatch_completes|]. intros r Hres.
  assert (dispatch_inv target d) as Hinv
    by apply dispatch_inv_run, dispatch_inv_call.
  destruct Hinv as (_ & _ & _ & Hcap & Hperm & Hraised & Hdone & _).
  unfold dispatch_result in Hres. destruct (joined d) eqn:Hj; [|done].
  injection Hres as <-.
  rewrite joined_in_flight, app_nil_r in Hperm by done.
  assert (match captured d with None => Done | Some e => Raised e end
          = match raised d with [] => Done | (_, e) :: _ => Raised e end) as Hr.
  { rewrite Hcap. by destruct (raised d) as [|[c e] rest]. }
  repeat split; try done.
  - apply Forall_forall. intros [c e] Hce. split.
    + rewrite Hperm. apply elem_of_app. right.
      apply list_elem_of_fmap. by exists (c, e).
    + exact (proj1 (Forall_forall _ _) Hraised (c, e) Hce).
  - intros (c & Hc & [e He]). rewrite Hperm in Hc.
    apply elem_of_app in Hc as [Hc|Hc].
    + pose proof (proj1 (Forall_forall _ _) Hdone c Hc) as Hnone.
      simpl in Hnone. congruence.
    + rewrite Hr. destruct (raised d) as [|[c0 e0] rest]; [by apply elem_of_nil in Hc|].
      by exists e0.
Qed.

Lemma dispatch_error_propagated_once_witness :
  let target := λ first _ : N,
    if first <? 4 then (if first =? 0 then Some "a"%string else Some "b"%string)
    else None in
  let d := run target [0; 1; 1; 0; 2; 2]%nat (call (λ _ _, 2) 3 10) in
  dispatch_result d = Some (Raised "b"%string)
  ∧ joined d = true
  ∧ claimed d ≡ₚ completed d ++ (raised d).*1.
Proof.
  intros target d.
  destruct (dispatch_error_propagated_once target (λ _ _, 2) 3 10
              [0; 1; 1; 0; 2; 2]%nat) as [_ H].
  destruct (H (Raised "b"%string)) as (Hj & _ & _ & Hperm & _); [reflexivity|].
  split; [reflexivity|]. split; [exact Hj|exact Hperm].
Defined.

(** ** Further properties of the process-group layer *)

(** X1. A second call of [initialize] returns normally and changes neither
    the MPI library nor the size and rank, whatever the first call did. *)
Theorem initialize_idempotent (mpi : bool) (env : MPI) (pm : ProcessManager) :
  let first := initialize mpi env pm in
  initialize mpi first.1.2 first.2 = (Returned, first.1.2, first.2).
Proof.
  unfold initialize. destruct mpi; [|done].
  destruct (mpi_initialized env) eqn:Hi; simpl; [by rewrite Hi|].
  by destruct (mpi_provided env <? MPI_THREAD_FUNNELED)%Z.
Qed.

Lemma no_mpi_calls (mpi : bool) (mms : N) (pm : ProcessManager) (size : N) :
  mpi = false ∨ (_size pm ≤ 1)%Z →
  wait mpi pm = []
  ∧ sumToAll mpi mms pm size = Some []
  ∧ sumToRoot mpi mms pm size = Some [].
Proof.
  intros H. unfold wait, sumToAll, sumToRoot, isMultiProc.
  destruct mpi; [|done]. destruct H as [?|H]; [done|].
  by destruct (Z.ltb_spec 1 (_size pm)); [lia|].
Qed.

(** X2. A process that is alone in its group, or that is built without MPI,
    issues no MPI call from [wait], [sumToAll] or [sumToRoot]. *)
Theorem single_process_never_calls_mpi (mpi : bool) (mms : N)
    (pm : ProcessManager) (size : N) :
  mpi = false ∨ (_size pm ≤ 1)%Z →
  wait mpi pm = []
  ∧ sumToAll mpi mms pm size = Some []
  ∧ sumToRoot mpi mms pm size = Some [].
Proof. apply no_mpi_calls. Qed.

Lemma single_process_never_calls_mpi_witness :
  wait true static_init = []
  ∧ sumToAll true maxMessageSize static_init 5000000000 = Some []
  ∧ sumToRoot true maxMessageSize static_init 5000000000 = Some [].
Proof.
  apply (single_process_never_calls_mpi true maxMessageSize static_init 5000000000).
  right. simpl. lia.
Defined.

(** X3. With one participant, or without MPI in the build, [sumToRoot]
    leaves the array as it is. *)
Theorem sumToRoot_single_participant {T} (msum : list T → T) (mpi : bool)
    (mms : N) (pm : ProcessManager) (buf : list T) :
  mpi = false ∨ (_size pm ≤ 1)%Z →
  group_sumToRoot msum mpi mms [(pm, buf)] = Some [buf].
Proof.
  intros H.
  destruct (no_mpi_calls mpi mms pm (N.of_nat (length buf)) H)
    as (_ & _ & Htr).
  unfold group_sumToRoot. simpl. by rewrite Htr.
Qed.

Lemma sumToRoot_single_participant_witness :
  group_sumToRoot zsum true maxMessageSize [(static_init, [4; 5; 6]%Z)]
  = Some [[4; 5; 6]%Z].
Proof.
  apply (sumToRoot_single_participant zsum true maxMessageSize static_init [4; 5; 6]%Z).
  right. simpl. lia.
Defined.

Lemma sumToAll_loop_closed mms fuel data remaining tr :
  0 < mms →
  sumToAll_loop mms fuel data remaining = Some tr →
  ∃ (k : nat) (last : N),
    remaining = N.of_nat k * mms + last
    ∧ last ≤ mms ∧ (0 < remaining → 0 < last)
    ∧ call_range <$> tr
      = ((λ i : nat, (data + N.of_nat i * mms, mms)) <$> seq 0 k)
        ++ [(data + N.of_nat k * mms, last)].
Proof.
  intros Hpos. revert data remaining tr.
  induction fuel as [|fuel IH]; intros data remaining tr; [done|].
  simpl. destruct (N.ltb_spec mms remaining) as [Hlt|Hge].
  - destruct (sumToAll_loop mms fuel _ _) as [tr'|] eqn:Htr'; simpl; [|done].
    intros [= <-]. destruct (IH _ _ _ Htr') as (k & last & Hrem & Hlast & Hne & Hranges).
    exists (S k), last. repeat split; [lia|done|intros _; apply Hne; lia|].
    csimpl. rewrite Hranges. f_equal; [unfold call_range; simpl; f_equal; lia|].
    rewrite <- fmap_S_seq, <- list_fmap_compose. f_equal; [|do 2 f_equal; lia].
    apply list_fmap_ext. intros _ i _. simpl. f_equal. lia.
  - intros [= <-]. exists 0%nat, remaining. repeat split; try done; try lia.
    simpl. unfold call_range. simpl. do 2 f_equal. lia.
Qed.

(** X4. In a group of several processes, an array of [size] elements is cut
    into [k] fragments of exactly the bound followed by one last fragment,
    where [size = k * bound + last] with [last] at most the bound and not
    empty unless the array is; fragment number [i] starts at [i * bound], and
    [sumToAll] and [sumToRoot] issue one call per fragment, in this order. *)
Theorem fragments_closed_form (mms : N) (pm : ProcessManager) (size : N) :
  0 < mms → isMultiProc pm = true →
  ∃ (k : nat) (last : N),
    size = N.of_nat k * mms + last
    ∧ last ≤ mms ∧ (0 < size → 0 < last)
    ∧ let ranges := ((λ i : nat, (N.of_nat i * mms, mms)) <$> seq 0 k)
                    ++ [(N.of_nat k * mms, last)] in
      sumToAll true mms pm size = Some (allreduce_at <$> ranges)
      ∧ sumToRoot true mms pm size = Some (reduce_at (isRoot pm) <$> ranges).
Proof.
  intros Hpos Hm.
  destruct (sumToAll_ranges mms Hpos pm size Hm) as (ranges & HA & HR & _ & _ & Hloop).
  destruct (sumToAll_loop_closed _ _ _ _ _ Hpos Hloop) as (k & last & Hsize & Hlast & Hne & Hr).
  assert (call_range <$> (allreduce_at <$> ranges) = ranges) as Hid.
  { rewrite <- list_fmap_compose. rewrite <- (list_fmap_id ranges) at 2.
    apply list_fmap_ext. by intros ? [] _. }
  rewrite Hid in Hr. exists k, last. repeat split; try done.
  - rewrite HA. do 2 f_equal. exact Hr.
  - rewrite HR. do 2 f_equal. exact Hr.
Qed.

Lemma fragments_closed_form_witness :
  ∃ (k : nat) (last : N),
    5000000000 = N.of_nat k * maxMessageSize + last
    ∧ sumToAll true maxMessageSize (mkPM 2 1) 5000000000
      = Some (allreduce_at <$>
                ((λ i : nat, (N.of_nat i * maxMessageSize, maxMessageSize)) <$> seq 0 k)
                ++ [(N.of_nat k * maxMessageSize, last)]).
Proof.
  destruct (fragments_closed_form maxMessageSize (mkPM 2 1) 5000000000)
    as (k & last & Hsize & _ & _ & HA & _); [reflexivity..|].
  exists k, last. split; [exact Hsize|exact HA].
Defined.

Lemma total_count_ranges ranges a b :
  tiles ranges a b → a + foldr N.add 0 (ranges.*2) = b.
Proof.
  revert a. induction ranges as [|[o n] rest IH]; csimpl; intros a.
  - intros ->. apply N.add_0_r.
  - intros [_ Ht]. specialize (IH _ Ht). simpl in *. lia.
Qed.

Lemma trace_facts (mms : N) (pm : ProcessManager) (size : N) :
  0 < mms → isMultiProc pm = true →
  ∃ trA trR,
    sumToAll true mms pm size = Some trA
    ∧ sumToRoot true mms pm size = Some trR
    ∧ call_range <$> trR = call_range <$> trA
    ∧ tiles (call_range <$> trA) 0 size
    ∧ Forall (λ c, call_count c ≤ mms) trA
    ∧ Forall (λ c, call_count c ≤ mms) trR.
Proof.
  intros Hpos Hm.
  destruct (sumToAll_ranges mms Hpos pm size Hm) as (ranges & HA & HR & Ht & Hfit & _).
  assert (call_range <$> (allreduce_at <$> ranges) = ranges) as HrA.
  { rewrite <- list_fmap_compose. rewrite <- (list_fmap_id ranges) at 2.
    apply list_fmap_ext. by intros ? [] _. }
  assert (call_range <$> (reduce_at (isRoot pm) <$> ranges) = ranges) as HrR.
  { rewrite <- list_fmap_compose. rewrite <- (list_fmap_id ranges) at 2.
    apply list_fmap_ext. intros ? [] _. by destruct (isRoot pm). }
  eexists _, _. split; [exact HA|]. split; [exact HR|].
  rewrite HrA, HrR. repeat split; try done.
  - apply Forall_fmap. eapply Forall_impl; [exact Hfit|]. by intros [].
  - apply Forall_fmap. eapply Forall_impl; [exact Hfit|]. intros [] ?. by destruct (isRoot pm).
Qed.

Lemma total_count_tiles tr a b :
  tiles (call_range <$> tr) a b → a + total_count tr = b.
Proof.
  intros Ht. apply total_count_ranges in Ht. rewrite <- Ht. unfold total_count.
  by rewrite <- list_fmap_compose.
Qed.

(** X5. The counts of the calls of [sumToAll], and of [sumToRoot], add up to
    the length of the array: every element is communicated, and none twice. *)
Theorem counts_add_up_to_size (mms : N) (pm : ProcessManager) (size : N) :
  0 < mms → isMultiProc pm = true →
  ∃ trA trR,
    sumToAll true mms pm size = Some trA ∧ total_count trA = size
    ∧ sumToRoot true mms pm size = Some trR ∧ total_count trR = size.
Proof.
  intros Hpos Hm.
  destruct (trace_facts mms pm size Hpos Hm) as (trA & trR & HA & HR & Heq & Ht & _).
  exists trA, trR. repeat split; try done.
  - apply total_count_tiles in Ht. lia.
  - rewrite <- Heq in Ht. apply total_count_tiles in Ht. lia.
Qed.

Lemma counts_add_up_to_size_witness :
  ∃ trA, sumToAll true 3 (mkPM 4 2) 10 = Some trA ∧ total_count trA = 10.
Proof.
  destruct (counts_add_up_to_size 3 (mkPM 4 2) 10) as (trA & _ & HA & Hsum & _);
    [reflexivity..|].
  by exists trA.
Defined.

(** X6. No call of [sumToAll] or [sumToRoot] reaches beyond the array: the
    range it reads and the range it writes end at or before [size]. *)
Theorem calls_stay_within_array (mms : N) (pm : ProcessManager) (size : N) :
  0 < mms → isMultiProc pm = true →
  ∃ trA trR,
    sumToAll true mms pm size = Some trA
    ∧ sumToRoot true mms pm size = Some trR
    ∧ Forall (λ c, call_recv c + call_count c ≤ size
                   ∧ call_source c + call_count c ≤ size) (trA ++ trR).
Proof.
  intros Hpos Hm.
  destruct (sumToAll_ranges mms Hpos pm size Hm) as (ranges & HA & HR & Ht & _).
  eexists _, _. split; [exact HA|]. split; [exact HR|].
  apply Forall_app. split; apply Forall_fmap, Forall_forall; intros [o n] Hrg;
    destruct (tiles_within _ _ _ _ Ht Hrg) as [_ Hin]; simpl in *.
  - done.
  - by destruct (isRoot pm).
Qed.

Lemma calls_stay_within_array_witness :
  ∃ trA, sumToAll true 3 (mkPM 4 2) 10 = Some trA
         ∧ Forall (λ c, call_recv c + call_count c ≤ 10) trA.
Proof.
  destruct (calls_stay_within_array 3 (mkPM 4 2) 10) as (trA & trR & HA & _ & Hin);
    [reflexivity..|].
  exists trA. split; [exact HA|].
  apply Forall_app in Hin as [Hin _].
  eapply Forall_impl; [exact Hin|]. by intros c [? _].
Defined.

(** X7. An array of at most [bound] elements is reduced in a single call over
    the whole array, and one of [bound + 1] elements in two calls, of [bound]
    elements and of one element. *)
Theorem single_call_up_to_bound (mms : N) (pm : ProcessManager) (size : N) :
  0 < mms → isMultiProc pm = true →
  (size ≤ mms →
     sumToAll true mms pm size = Some [MPI_Allreduce MPI_IN_PLACE 0 size]
     ∧ sumToRoot true mms pm size = Some [reduce_at (isRoot pm) (0, size)])
  ∧ sumToAll true mms pm (mms + 1)
    = Some [MPI_Allreduce MPI_IN_PLACE 0 mms; MPI_Allreduce MPI_IN_PLACE mms 1]
  ∧ sumToRoot true mms pm (mms + 1)
    = Some [reduce_at (isRoot pm) (0, mms); reduce_at (isRoot pm) (mms, 1)].
Proof.
  intros Hpos Hm. unfold sumToAll, sumToRoot. rewrite Hm.
  assert (∃ f, loop_fuel mms (mms + 1) = S (S f)) as [f Hfuel].
  { unfold loop_fuel.
    assert (1 ≤ (mms + 1) / mms) as H by (apply N.div_le_lower_bound; lia).
    revert H. generalize ((mms + 1) / mms). intros q Hq.
    exists (N.to_nat q - 1)%nat. lia. }
  split; [intros Hle; unfold loop_fuel; simpl|rewrite Hfuel; simpl].
  - destruct (N.ltb_spec mms size) as [?|_]; [lia|].
    unfold reduce_at. simpl. by destruct (isRoot pm).
  - destruct (N.ltb_spec mms (mms + 1)) as [_|?]; [|lia].
    replace (mms + 1 - mms) with 1 by lia.
    destruct (N.ltb_spec mms 1) as [?|_]; [lia|]. simpl.
    unfold reduce_at. simpl. by destruct (isRoot pm).
Qed.

Lemma single_call_up_to_bound_witness :
  sumToAll true maxMessageSize (mkPM 2 0) maxMessageSize
  = Some [MPI_Allreduce MPI_IN_PLACE 0 2147483645]
  ∧ sumToAll true maxMessageSize (mkPM 2 0) (maxMessageSize + 1)
    = Some [MPI_Allreduce MPI_IN_PLACE 0 2147483645;
            MPI_Allreduce MPI_IN_PLACE 2147483645 1].
Proof.
  destruct (single_call_up_to_bound maxMessageSize (mkPM 2 0) maxMessageSize)
    as (Hone & Htwo & _); [reflexivity..|].
  split; [apply Hone; reflexivity|exact Htwo].
Defined.

(** X8. The calls of [sumToRoot] are reductions to root 0 in which rank 0, and
    only rank 0, passes [MPI_IN_PLACE], and every other rank sends from the
    range it names as receive buffer; the calls of [sumToAll] all pass
    [MPI_IN_PLACE]. All of them satisfy the argument rules of the transport. *)
Theorem collective_arguments (mms : N) (P rank : nat) (size : N) :
  0 < mms → (1 < P)%nat →
  ∃ trA trR,
    sumToAll true mms (member P rank) size = Some trA
    ∧ sumToRoot true mms (member P rank) size = Some trR
    ∧ Forall (λ c, call_kind c = AllreduceOp ∧ call_send c = MPI_IN_PLACE
                   ∧ call_valid rank c = true) trA
    ∧ Forall (λ c, call_kind c = ReduceOp 0
                   ∧ (call_send c = MPI_IN_PLACE ↔ rank = 0%nat)
                   ∧ call_source c = call_recv c
                   ∧ call_valid rank c = true) trR.
Proof.
  intros Hpos HP.
  destruct (sumToAll_ranges mms Hpos (member P rank) size)
    as (ranges & HA & HR & _).
  { rewrite isMultiProc_member. by apply bool_decide_eq_true_2. }
  rewrite isRoot_member in HR.
  eexists _, _. split; [exact HA|]. split; [exact HR|].
  split; apply Forall_fmap, Forall_forall; intros [o n] _.
  - by destruct (allreduce_at_call rank (o, n)) as (? & _ & _ & ? & _).
  - destruct (reduce_at_call rank (o, n)) as (? & _ & _ & ? & _).
    simpl. repeat split; try done; unfold reduce_at; case_bool_decide; naive_solver.
Qed.

Lemma collective_arguments_witness :
  ∃ trR, sumToRoot true 2 (member 3 1) 5 = Some trR
         ∧ Forall (λ c, call_kind c = ReduceOp 0 ∧ call_valid 1 c = true) trR.
Proof.
  destruct (collective_arguments 2 3 1 5) as (trA & trR & _ & HR & _ & Hargs).
  - reflexivity.
  - lia.
  - exists trR. split; [exact HR|].
    eapply Forall_impl; [exact Hargs|]. by intros c (? & _ & _ & ?).
Defined.

(** X10. Two processes of multi-process groups that pass arrays of different
    lengths issue different sequences of counts, from [sumToAll] and from
    [sumToRoot]: the sequences differ in their number of calls or in the count
    of some call. *)
Theorem unequal_lengths_differ (mms : N) (pm1 pm2 : ProcessManager)
    (size1 size2 : N) :
  0 < mms → isMultiProc pm1 = true → isMultiProc pm2 = true → size1 ≠ size2 →
  ∃ trA1 trA2 trR1 trR2,
    sumToAll true mms pm1 size1 = Some trA1
    ∧ sumToAll true mms pm2 size2 = Some trA2
    ∧ sumToRoot true mms pm1 size1 = Some trR1
    ∧ sumToRoot true mms pm2 size2 = Some trR2
    ∧ call_count <$> trA1 ≠ call_count <$> trA2
    ∧ call_count <$> trR1 ≠ call_count <$> trR2.
Proof.
  intros Hpos Hm1 Hm2 Hne.
  destruct (trace_facts mms pm1 size1 Hpos Hm1)
    as (trA1 & trR1 & HA1 & HR1 & Heq1 & Ht1 & _).
  destruct (trace_facts mms pm2 size2 Hpos Hm2)
    as (trA2 & trR2 & HA2 & HR2 & Heq2 & Ht2 & _).
  exists trA1, trA2, trR1, trR2. repeat split; try done.
  - intros Hc. apply Hne.
    apply total_count_tiles in Ht1, Ht2. unfold total_count in *.
    rewrite Hc in Ht1. lia.
  - intros Hc. apply Hne.
    rewrite <- Heq1 in Ht1. rewrite <- Heq2 in Ht2.
    apply total_count_tiles in Ht1, Ht2. unfold total_count in *.
    rewrite Hc in Ht1. lia.
Qed.

Lemma unequal_lengths_differ_witness :
  ∃ trA1 trA2,
    sumToAll true 2 (mkPM 2 0) 5 = Some trA1
    ∧ sumToAll true 2 (mkPM 2 1) 6 = Some trA2
    ∧ call_count <$> trA1 ≠ call_count <$> trA2.
Proof.
  destruct (unequal_lengths_differ 2 (mkPM 2 0) (mkPM 2 1) 5 6)
    as (trA1 & trA2 & _ & _ & HA1 & HA2 & _ & _ & Hne & _).
  - reflexivity.
  - reflexivity.
  - reflexivity.
  - discriminate.
  - by exists trA1, trA2.
Defined.

(** X11. Processes that start from the static size and rank, initialize a
    fresh MPI library that grants at least the funneled level and reports [P]
    processes and their rank, and then call [sumToAll] on arrays of one
    length, all end up with the position-wise sums. *)
Theorem initialize_then_sumToAll {T} (msum : list T → T) (mms : N) (level : Z)
    (bufs : list (list T)) (L : nat) :
  0 < mms → (Z.of_N mms ≤ INT_MAX)%Z → (∀ x, msum [x] = x) →
  (MPI_THREAD_FUNNELED ≤ level)%Z →
  bufs ≠ [] → Forall (λ b, length b = L) bufs →
  let start rank :=
    initialize true
      (mkMPI false level (Z.of_nat (length bufs)) (Z.of_nat rank)) static_init in
  Forall (λ c, c = Returned) ((λ rank, (start rank).1.1) <$> seq 0 (length bufs))
  ∧ group_sumToAll msum true mms (imap (λ rank b, ((start rank).2, b)) bufs)
    = Some (replicate (length bufs) (reduce_segments msum L bufs)).
Proof.
  intros Hpos Hint Hsingle Hlevel Hne Hlen start.
  assert (∀ rank, start rank
            = (Returned,
               mkMPI true level (Z.of_nat (length bufs)) (Z.of_nat rank),
               member (length bufs) rank)) as Hstart.
  { intros rank. unfold start, initialize. simpl.
    by destruct (Z.ltb_spec level MPI_THREAD_FUNNELED); [lia|]. }
  split.
  - apply Forall_fmap, Forall_forall. intros rank _. simpl. by rewrite Hstart.
  - rewrite (imap_ext _ (λ rank b, (member (length bufs) rank, b)))
      by (intros; simpl; by rewrite Hstart).
    fold (group bufs). rewrite (group_sumToAll_result msum mms bufs L) by done.
    f_equal. apply list_eq. intros i. rewrite list_lookup_imap.
    destruct (bufs !! i) eqn:Hb; simpl.
    + rewrite lookup_replicate_2; [done|]. by eapply lookup_lt_Some.
    + symmetry. apply lookup_ge_None_2. rewrite length_replicate.
      by apply lookup_ge_None_1.
Qed.

Lemma initialize_then_sumToAll_witness :
  group_sumToAll zsum true 2
    (imap (λ rank b,
       ((initialize true (mkMPI false MPI_THREAD_MULTIPLE 2 (Z.of_nat rank))
           static_init).2, b))
       [[1; 2; 3]; [10; 20; 30]]%Z)
  = Some [[11; 22; 33]; [11; 22; 33]]%Z.
Proof.
  destruct (initialize_then_sumToAll zsum 2 MPI_THREAD_MULTIPLE
              [[1; 2; 3]; [10; 20; 30]]%Z 3) as [_ Hsum].
  - reflexivity.
  - vm_compute. discriminate.
  - intros x. unfold zsum. simpl. lia.
  - vm_compute. discriminate.
  - discriminate.
  - repeat constructor.
  - exact Hsum.
Defined.

(** ** Material types *)

(** X12. Of [isDust], [isElectrons] and [isGas] exactly one is true for a
    material mix, and it names the material type of the mix. *)
Theorem material_queries_exclusive `{MaterialMix M} (m : M) :
  (isDust m = true ↔ materialType m = Dust)
  ∧ (isElectrons m = true ↔ materialType m = Electrons)
  ∧ (isGas m = true ↔ materialType m = Gas)
  ∧ (Nat.b2n (isDust m) + Nat.b2n (isElectrons m) + Nat.b2n (isGas m) = 1)%nat.
Proof.
  unfold isDust, isElectrons, isGas.
  rewrite !bool_decide_eq_true. repeat split; try done.
  by destruct (materialType m).
Qed.
